(** * makemore: bigram counts over a corpus of words

    A shallow embedding of [jupyter/02-makemore/makemore.py]: the vocabulary
    ([chars], [stoi], [itos]), the counting pass over the 27 x 27 table [N]
    of 32-bit integers, and the extraction of the starting-character
    distribution [p] from row 0 of the table.

    The loader ([open(...).read().splitlines()]) and the plot are outside
    the model: a corpus is the list [words] the loader produces. *)

From Stdlib Require Import ZArith QArith Lia String Ascii.
From Stdlib Require Import Floats.SpecFloat.
From stdpp Require Import base option list sorting numbers gmap.

Local Open Scope Z_scope.
Local Open Scope nat_scope.

(** ** Characters and words *)

(** A Python [str] is a sequence of code points; a character is modelled
    by its code point, and two one-character strings compare as their code
    points do. *)
Abbreviation char := N (only parsing).
Abbreviation word := (list N) (only parsing).

(** The boundary symbol ["."]. *)
Definition dot : char := 46%N.

(** A string literal as a word. *)
Definition str (s : string) : word := N_of_ascii <$> list_ascii_of_string s.

(** ** Exceptions *)

Inductive exn : Set := KeyError | IndexError.

Inductive result (A : Type) : Type :=
| Ok (a : A)
| Raise (e : exn).
Arguments Ok {A} a.
Arguments Raise {A} e.

(** Sequencing: the first exception raised ends the computation. *)
#[global] Instance result_ret : MRet result := λ A a, Ok a.
#[global] Instance result_bind : MBind result := λ A B k r,
  match r with
  | Ok a => k a
  | Raise e => Raise e
  end.

(** A loop [for x in xs: s = body(s, x)] whose body may raise. *)
Fixpoint for_each {S X} (body : S → X → result S) (s : S) (xs : list X)
  : result S :=
  match xs with
  | [] => Ok s
  | x :: xs' => s' ← body s x; for_each body s' xs'
  end.

(** ** Vocabulary *)

(** [chars = sorted(list(set("".join(words))))].  The set is a [gset]; the
    order in which [list] enumerates it is that of [elements], and [sorted]
    orders the code points increasingly. *)
Definition join (words : list word) : word := mjoin words.

Definition sorted (l : list char) : list char := merge_sort N.le l.

Definition chars (words : list word) : list char :=
  sorted (elements (list_to_set (join words) : gset N)).

(** A dict comprehension or a [dict] built from a stream of items: the
    items are inserted one after the other, a later item replacing an
    earlier one with the same key. *)
Definition dict_of `{Countable K} {V} (items : list (K * V)) : gmap K V :=
  foldl (λ d kv, <[kv.1 := kv.2]> d) ∅ items.

(** [enumerate(xs)]. *)
Definition enumerate {A} (xs : list A) : list (nat * A) :=
  imap (λ i x, (i, x)) xs.

(** [stoi = { x:(i+1) for i, x in enumerate(chars) }; stoi["."] = 0]. *)
Definition stoi0 (words : list word) : gmap N nat :=
  dict_of ((λ ix : nat * N, (ix.2, ix.1 + 1)) <$> enumerate (chars words)).

Definition stoi (words : list word) : gmap N nat :=
  <[dot := 0]> (stoi0 words).

(** [itos = { i:s for s,i in stoi.items() }], for the items of [stoi]
    taken in the order [items].  The order does not matter, [stoi] being
    injective: see [itos_of_lookup]. *)
Definition itos_of (items : list (N * nat)) : gmap nat N :=
  dict_of ((λ si : N * nat, (si.2, si.1)) <$> items).

Definition itos (words : list word) : gmap nat N :=
  itos_of (map_to_list (stoi words)).

(** [d[k]]: a missing key raises [KeyError]. *)
Definition getitem `{Countable K} {V} (d : gmap K V) (k : K) : result V :=
  match d !! k with
  | Some v => Ok v
  | None => Raise KeyError
  end.

(** [l[i]] for a non-negative [i]: out of range raises [IndexError]. *)
Definition list_getitem {A} (l : list A) (i : nat) : result A :=
  match l !! i with
  | Some x => Ok x
  | None => Raise IndexError
  end.

(** ** The count table *)

(** A cell holds a signed 32-bit integer ([dtype=torch.int32]); arithmetic
    on cells wraps around. *)
Definition wrap32 (z : Z) : Z := ((z + 2 ^ 31) mod 2 ^ 32 - 2 ^ 31)%Z.

Abbreviation matrix := (list (list Z)) (only parsing).

(** [torch.zeros((r, c), dtype=torch.int32)]. *)
Definition zeros (r c : nat) : matrix := replicate r (replicate c 0%Z).

(** The side of the table. *)
Definition side : nat := 27.

Definition N_init : matrix := zeros side side.

(** [M[i, j]] as an optional value: [None] outside the table. *)
Definition cell (M : matrix) (i j : nat) : option Z :=
  row ← M !! i; row !! j.

(** [M[i, j] += 1] for non-negative [i], [j]: outside the table the access
    raises [IndexError] and the table is left as it was. *)
Definition incr (M : matrix) (i j : nat) : result matrix :=
  match M !! i with
  | Some row =>
      match row !! j with
      | Some v => Ok (<[i := <[j := wrap32 (v + 1)]> row]> M)
      | None => Raise IndexError
      end
  | None => Raise IndexError
  end.

(** ** The counting pass *)

(** [c = ["."] + list(w) + ["."]]. *)
Definition wrapped (w : word) : list char := [dot] ++ w ++ [dot].

(** [range(n)[:-1]]. *)
Definition range_but_last (n : nat) : list nat := seq 0 (n - 1).

(** The body of the inner loop, [N[stoi[c[i]], stoi[c[i+1]]] += 1]: the two
    subscripts are evaluated from left to right, then the cell is read and
    written. *)
Definition count_at (st : gmap N nat) (c : list char) (M : matrix) (i : nat)
  : result matrix :=
  a ← list_getitem c i;
  ia ← getitem st a;
  b ← list_getitem c (i + 1);
  ib ← getitem st b;
  incr M ia ib.

(** The body of the outer loop. *)
Definition count_word (st : gmap N nat) (M : matrix) (w : word)
  : result matrix :=
  let c := wrapped w in
  for_each (count_at st c) M (range_but_last (length c)).

(** The whole pass, from the zero table, with the vocabulary of the corpus. *)
Definition counter (words : list word) : result matrix :=
  for_each (count_word (stoi words)) N_init words.

(** ** The starting-character distribution *)

(** Single-precision floats: 24 bits of precision, exponents below 128. *)
Definition prec32 : Z := 24%Z.
Definition emax32 : Z := 128%Z.

(** [x.float()] on a 32-bit integer: the nearest float, ties to even. *)
Definition to_float (z : Z) : spec_float :=
  binary_normalize prec32 emax32 z 0 false.

(** [t.sum()] on a vector of floats, accumulated from the left. *)
Definition fsum (l : list spec_float) : spec_float :=
  foldl (SFadd prec32 emax32) (S754_zero false) l.

(** [p = N[0].float(); p = p / p.sum()].  The division is not guarded: a
    zero sum makes every quotient a NaN, and nothing is raised. *)
Definition p (M : matrix) : result (list spec_float) :=
  row ← list_getitem M 0;
  let pf := to_float <$> row in
  let s := fsum pf in
  Ok ((λ x, SFdiv prec32 emax32 x s) <$> pf).

(** Sums of integers and of rationals. *)
Definition zsum (l : list Z) : Z := foldr Z.add 0%Z l.


(** Floats that are neither NaN nor infinite nor negative: [+0], or a
    normal float [m * 2^e] with a mantissa of 24 bits and [lo <= e <= hi]. *)
Definition normal32 (lo hi : Z) (x : spec_float) : Prop :=
  ∃ m e, x = S754_finite false m e ∧ Zpos (digits2_pos m) = 24%Z ∧
         (lo ≤ e ≤ hi)%Z.

Definition nonneg32 (lo hi : Z) (x : spec_float) : Prop :=
  x = S754_zero false ∨ normal32 lo hi x.

(** ** What the table is meant to hold *)

(** The consecutive pairs of a sequence. *)
Definition bigrams {A} (c : list A) : list (A * A) := zip c (tail c).

(** Every pair of neighbours in the corpus, each word taken between two
    boundary symbols. *)
Definition transitions (words : list word) : list (N * N) :=
  w ← words; bigrams (wrapped w).

(** How often a character of index [j] immediately follows a character of
    index [i]. *)
Definition follows (words : list word) (i j : nat) : nat :=
  length (filter (λ ab : N * N,
                    stoi words !! ab.1 = Some i ∧ stoi words !! ab.2 = Some j)
                 (transitions words)).

(** The sum of all cells of a table. *)
Definition table_sum (M : matrix) : Z := zsum (zsum <$> M).

(** The number of characters of the corpus plus its number of words. *)
Definition total (words : list word) : nat :=
  foldr (λ w n, length w + 1 + n) 0 words.

(** A table of [r] rows of [c] cells each. *)
Definition shape (r c : nat) (M : matrix) : Prop :=
  length M = r ∧ Forall (λ row, length row = c) M.

(** ** The pass seen as a sequence of increments *)

(** The increments [N[i, j] += 1] of a list of index pairs, in order. *)
Definition bump_all (M : matrix) (ps : list (nat * nat)) : result matrix :=
  for_each (λ M' ij, incr M' ij.1 ij.2) M ps.

(** The pair of indices of a pair of characters (0 stands in for a missing
    key; no key is missing during the pass, see [counter_bump_all]). *)
Definition index_pair (st : gmap N nat) (ab : N * N) : nat * nat :=
  (default 0 (st !! ab.1), default 0 (st !! ab.2)).

Definition indices (words : list word) : list (nat * nat) :=
  index_pair (stoi words) <$> transitions words.

(** The number of occurrences of an index pair. *)
Definition occurrences (ij : nat * nat) (ps : list (nat * nat)) : nat :=
  length (filter (λ q, q = ij) ps).

(** A cell after [n] increments. *)
Definition bumped (n : nat) (v : Z) : Z :=
  Nat.iter n (λ u, wrap32 (u + 1)) v.

(** An index pair that lies in an [r] x [c] table. *)
Definition inside (r c : nat) (ij : nat * nat) : Prop :=
  ij.1 < r ∧ ij.2 < c.

#[global] Instance inside_dec r c ij : Decision (inside r c ij).
Proof. unfold inside. apply _. Defined.

(** A table without negative cells. *)
Definition nonneg (M : matrix) : Prop := Forall (Forall (λ v, 0 ≤ v)%Z) M.

(** The [r] x [c] table whose cell [i, j] is [f i j]. *)
Definition tabulate (r c : nat) (f : nat → nat → Z) : matrix :=
  (λ i, f i <$> seq 0 c) <$> seq 0 r.

(** The zero table but for [v] in cell [0, 0]. *)
Definition corner (v : Z) : matrix :=
  tabulate side side (λ i j, if decide ((i, j) = (0, 0)) then v else 0%Z).

(** A corpus of [n] empty lines. *)
Definition empty_lines (n : nat) : list word := replicate n [].

(** A character literal. *)
Definition chr (a : ascii) : char := N_of_ascii a.

(** ** Sample corpora *)

Definition corpus_a : list word := [str "a"].
Definition corpus_ab_ab : list word := [str "ab"; str "ab"].
Definition corpus_ab_empty : list word := [str "ab"; str ""].
Definition corpus_names : list word := [str "emma"; str "olivia"].

(** The twenty-six letters. *)
Definition corpus_alphabet : list word := [str "abcdefghijklmnopqrstuvwxyz"].

(** Twenty-six letters and a hyphen: 27 distinct characters. *)
Definition corpus_hyphen : list word :=
  [str "abcdefghijklmnopqrstuvwxyz"; str "mary-ann"].

(** Files of [2^31] and of [2^32] empty lines. *)
Definition lines_2_31 : list word := empty_lines (Z.to_nat (2 ^ 31)).
Definition lines_2_32 : list word := empty_lines (Z.to_nat (2 ^ 32)).

(** The twenty-six letters followed by [n] empty lines, and two files of
    this kind, of [2^32 - 1] and of [2^32] empty lines. *)
Definition corpus_alphabet_lines (n : nat) : list word :=
  corpus_alphabet ++ empty_lines n.


Definition corpus_back_to_zero : list word :=
  corpus_alphabet_lines (Z.to_nat (2 ^ 32)).

(** The table of the twenty-six letters, but for [v] in cell [0, 0]. *)
Definition table_alphabet (v : Z) : matrix :=
  tabulate side side
    (λ i j, if decide ((i, j) = (0, 0)) then v
            else if decide (j = (i + 1) `mod` 27) then 1%Z else 0%Z).

(** The tables of the first three. *)
Definition table_a : matrix :=
  tabulate side side
    (λ i j, if decide ((i, j) = (0, 1) ∨ (i, j) = (1, 0)) then 1%Z else 0%Z).

Definition table_ab_ab : matrix :=
  tabulate side side
    (λ i j, if decide ((i, j) = (0, 1) ∨ (i, j) = (1, 2) ∨ (i, j) = (2, 0))
            then 2%Z else 0%Z).

Definition table_ab_empty : matrix :=
  tabulate side side
    (λ i j, if decide ((i, j) = (0, 0) ∨ (i, j) = (0, 1) ∨ (i, j) = (1, 2)
                       ∨ (i, j) = (2, 0))
            then 1%Z else 0%Z).

(** ** The loader *)

(** The characters at which [str.splitlines] ends a line: line feed,
    vertical tab, form feed, carriage return, the file, group and record
    separators, next line, and the line and paragraph separators. *)
Definition is_linebreak (c : char) : bool :=
  bool_decide (c ∈ [10; 11; 12; 13; 28; 29; 30; 133; 8232; 8233]%N).

(** [s.splitlines()], with [cur] the characters of the current line read so
    far, last one first.  A carriage return directly followed by a line feed
    ends one line, not two; what follows the last line break is a line only
    when it is not empty. *)
Fixpoint splitlines_from (cur : list char) (s : list char) : list word :=
  match s with
  | [] => match cur with [] => [] | _ => [reverse cur] end
  | c :: s' =>
      if is_linebreak c then
        reverse cur ::
          match s' with
          | c' :: s'' =>
              if bool_decide (c = 13%N ∧ c' = 10%N)
              then splitlines_from [] s''
              else splitlines_from [] s'
          | [] => splitlines_from [] s'
          end
      else splitlines_from (c :: cur) s'
  end.

Definition splitlines (s : list char) : list word := splitlines_from [] s.

(** [words = open(...).read().splitlines()], for the text [read()]
    returns. *)
Definition load (text : list char) : list word := splitlines text.

(** A file of one word per line, each line ended by a line feed. *)
Definition lines_text (words : list word) : list char :=
  w ← words; w ++ [10%N].

(** ** The plot *)

(** The calls made on [plt], in order. *)
Inductive content : Type :=
| Label (s : list N)
| Count (v : Z).

Inductive valign : Set := Bottom | Top.

Inductive draw : Type :=
| Figure (w h : nat)
| Imshow (M : list (list Z))
| Text (x y : nat) (c : content) (va : valign)
| AxisOff.

(** [M[i, j].item()]. *)
Definition item (M : matrix) (i j : nat) : result Z :=
  match cell M i j with
  | Some v => Ok v
  | None => Raise IndexError
  end.

(** The body of the inner loop of the plot: the label [itos[i] + itos[j]]
    above the count [N[i, j]], both at column [j] and row [i]. *)
Definition annotate (it : gmap nat N) (M : matrix) (i : nat) (t : list draw)
    (j : nat) : result (list draw) :=
  a ← getitem it i;
  b ← getitem it j;
  let c := [a] ++ [b] in
  v ← item M i j;
  Ok (t ++ [Text j i (Label c) Bottom; Text j i (Count v) Top]).

(** The plot: the figure, the image of the table, the two texts of every
    cell row by row, and the axes switched off. *)
Definition render (it : gmap nat N) (M : matrix) : result (list draw) :=
  t ← for_each (λ t i, for_each (annotate it M i) t (seq 0 side))
        [Figure 16 16; Imshow M] (seq 0 side);
  Ok (t ++ [AxisOff]).

(** The two texts of cell [i, j] when index [k] stands for character
    [f k], and the whole plot of a table. *)
Definition cell_texts (f : nat → N) (M : matrix) (i j : nat) : list draw :=
  [Text j i (Label [f i; f j]) Bottom;
   Text j i (Count (default 0%Z (cell M i j))) Top].

Definition plot_of (f : nat → N) (M : matrix) : list draw :=
  [Figure 16 16; Imshow M]
  ++ (i ← seq 0 side; j ← seq 0 side; cell_texts f M i j)
  ++ [AxisOff].

(** The script from the corpus on, run from top to bottom: the pass, the
    plot, the extraction. *)
Definition script (words : list word)
  : result (list draw * list spec_float) :=
  M ← counter words;
  t ← render (itos words) M;
  v ← p M;
  Ok (t, v).

(** The vector the script extracts when it is run from top to bottom. *)
Definition starting_distribution (words : list word)
  : result (list spec_float) :=
  tv ← script words; Ok tv.2.

(** ** Sums along the table *)

(** The sum of [g k] for [k] below [n]. *)
Definition sum_below (n : nat) (g : nat → Z) : Z := zsum (g <$> seq 0 n).

(** The sums of row [i] and of column [j] of a table. *)
Definition row_sum (M : matrix) (i : nat) : Z := zsum (default [] (M !! i)).

Definition col_sum (M : matrix) (j : nat) : Z :=
  zsum ((λ row, default 0%Z (row !! j)) <$> M).

(** The number of elements of a list that satisfy [P]. *)
Definition count_if {A} (P : A → Prop) `{∀ x, Decision (P x)} (l : list A)
  : nat :=
  length (filter P l).

(** The first character of a word between its boundary symbols: its first
    character, or the closing boundary symbol when the word is empty. *)
Definition first_char (w : word) : char := default dot (head w).

(** ** Facts about the vocabulary *)

Section vocabulary.
Implicit Types (words : list (list N)) (x y : N) (n i : nat).

Lemma dict_of_snoc `{Countable K} {V} (items : list (K * V)) kv :
  dict_of (items ++ [kv]) = <[kv.1 := kv.2]> (dict_of items).
Proof. unfold dict_of. by rewrite foldl_app. Qed.

Lemma dict_of_list_to_map `{Countable K} {V} (items : list (K * V)) :
  dict_of items = list_to_map (reverse items).
Proof.
  induction items as [|kv items IH] using rev_ind; [done|].
  by rewrite dict_of_snoc, reverse_snoc, IH.
Qed.

(** Without a repeated key, a dict holds exactly its items. *)
Lemma dict_of_lookup `{Countable K} {V} (items : list (K * V)) k v :
  NoDup items.*1 → dict_of items !! k = Some v ↔ (k, v) ∈ items.
Proof.
  intros Hnd. rewrite dict_of_list_to_map.
  rewrite <- elem_of_list_to_map, elem_of_reverse; [done|].
  by rewrite fmap_reverse, reverse_Permutation.
Qed.

Lemma chars_Permutation words :
  chars words ≡ₚ elements (list_to_set (join words) : gset N).
Proof. apply merge_sort_Permutation. Qed.

Lemma chars_NoDup words : NoDup (chars words).
Proof. rewrite chars_Permutation. apply NoDup_elements. Qed.

Lemma elem_of_chars words x : x ∈ chars words ↔ x ∈ join words.
Proof. rewrite chars_Permutation. set_solver. Qed.

Lemma chars_Sorted words : Sorted N.le (chars words).
Proof. apply (Sorted_merge_sort N.le). Qed.

Lemma stoi0_keys words :
  ((λ ix : nat * N, (ix.2, ix.1 + 1)) <$> enumerate (chars words)).*1
  = chars words.
Proof.
  unfold enumerate. rewrite <- list_fmap_compose, fmap_imap.
  induction (chars words) as [|x l IH] using rev_ind; [done|].
  by rewrite imap_app, IH.
Qed.

Lemma stoi0_lookup words x n :
  stoi0 words !! x = Some n ↔ ∃ i, n = i + 1 ∧ chars words !! i = Some x.
Proof.
  unfold stoi0. rewrite dict_of_lookup
    by (rewrite stoi0_keys; apply chars_NoDup).
  rewrite list_elem_of_fmap. unfold enumerate. split.
  - intros ([i y] & [= -> ->] & Hin).
    apply elem_of_lookup_imap in Hin as (i' & y' & [= -> ->] & Hl). eauto.
  - intros (i & -> & Hl). exists (i, x). split; [done|].
    apply elem_of_lookup_imap. eauto.
Qed.

(** The index of a character: 0 for the boundary symbol, and one more
    than its rank among the sorted characters otherwise. *)
Lemma stoi_lookup words x n :
  stoi words !! x = Some n ↔
    (x = dot ∧ n = 0) ∨
    (x ≠ dot ∧ ∃ i, n = i + 1 ∧ chars words !! i = Some x).
Proof.
  unfold stoi. destruct (decide (x = dot)) as [->|Hx].
  - rewrite lookup_insert_eq. split.
    + intros [= <-]. by left.
    + by intros [[_ ->]|[? _]].
  - rewrite lookup_insert_ne by done. rewrite stoi0_lookup. split.
    + intros Hi. by right.
    + by intros [[? _]|[_ Hi]].
Qed.

Lemma stoi_dot words : stoi words !! dot = Some 0.
Proof. apply lookup_insert_eq. Qed.

Lemma stoi_inj words x y n :
  stoi words !! x = Some n → stoi words !! y = Some n → x = y.
Proof.
  rewrite !stoi_lookup.
  intros [[-> ->]|[Hx (i & -> & Hi)]] [[-> Hn]|[Hy (j & Hj & Hj')]];
    try done; try lia.
  assert (i = j) as -> by lia. congruence.
Qed.

(** Every character of the corpus, and the boundary symbol, has an index,
    and no index exceeds the number of distinct characters. *)
Lemma stoi_total words x :
  x = dot ∨ x ∈ join words → is_Some (stoi words !! x).
Proof.
  intros Hx. destruct (decide (x = dot)) as [->|Hne].
  - rewrite stoi_dot. eauto.
  - destruct Hx as [?|Hx]; [done|].
    apply elem_of_chars, list_elem_of_lookup in Hx as [i Hi].
    exists (i + 1). apply stoi_lookup. eauto.
Qed.

Lemma stoi_bound words x n :
  stoi words !! x = Some n → n ≤ length (chars words).
Proof.
  rewrite stoi_lookup. intros [[_ ->]|[_ (i & -> & Hi)]]; [lia|].
  apply lookup_lt_Some in Hi. lia.
Qed.

(** [itos] holds the items of [stoi] turned round, in whatever order the
    items are visited. *)
Lemma itos_of_lookup words items i x :
  items ≡ₚ map_to_list (stoi words) →
  itos_of items !! i = Some x ↔ stoi words !! x = Some i.
Proof.
  intros Hp. unfold itos_of. rewrite dict_of_lookup.
  - rewrite list_elem_of_fmap. rewrite <- elem_of_map_to_list, <- Hp. split.
    + by intros ([y j] & [= -> ->] & Hin).
    + intros Hin. by exists (x, i).
  - rewrite <- list_fmap_compose.
    apply NoDup_fmap_2_strong; [|rewrite Hp; apply NoDup_map_to_list].
    intros [y j] [z k]. rewrite !Hp, !elem_of_map_to_list. simpl.
    intros Hy Hz <-. f_equal. eapply stoi_inj; eauto.
Qed.
End vocabulary.

(** ** Facts about the table *)

Section table.
Implicit Types (M : list (list Z)) (row : list Z) (i j r c n : nat).
Implicit Types (v : Z) (ps : list (nat * nat)).

Lemma wrap32_small v : (- 2 ^ 31 ≤ v < 2 ^ 31)%Z → wrap32 v = v.
Proof. intros Hv. unfold wrap32. rewrite Z.mod_small; lia. Qed.

Lemma wrap32_succ v : wrap32 (wrap32 v + 1) = wrap32 (v + 1).
Proof.
  unfold wrap32. f_equal.
  replace ((v + 2 ^ 31) mod 2 ^ 32 - 2 ^ 31 + 1 + 2 ^ 31)%Z
    with ((v + 2 ^ 31) mod 2 ^ 32 + 1)%Z by lia.
  rewrite Z.add_mod_idemp_l by lia. f_equal. lia.
Qed.

Lemma bumped_succ n v : bumped (S n) v = bumped n (wrap32 (v + 1)).
Proof. unfold bumped. by rewrite Nat.iter_succ_r. Qed.

(** From zero, [n] increments leave [n] reduced to 32 bits. *)
Lemma bumped_zero n : bumped n 0 = wrap32 (Z.of_nat n).
Proof.
  induction n as [|n IH]; [done|].
  unfold bumped in *. simpl. rewrite IH, wrap32_succ. f_equal. lia.
Qed.

Lemma shape_zeros r c : shape r c (zeros r c).
Proof.
  split; [apply length_replicate|].
  apply Forall_replicate, length_replicate.
Qed.

Lemma cell_zeros r c i j : i < r → j < c → cell (zeros r c) i j = Some 0%Z.
Proof.
  intros Hi Hj. unfold cell, zeros.
  rewrite lookup_replicate_2 by done. simpl. by apply lookup_replicate_2.
Qed.

Lemma shape_lookup r c M i :
  shape r c M → i < r → ∃ row, M !! i = Some row ∧ length row = c.
Proof.
  intros [Hr Hc] Hi. destruct (lookup_lt_is_Some_2 M i) as [row Hrow]; [lia|].
  exists row. split; [done|]. eapply Forall_lookup_1 in Hc; eauto.
Qed.

Lemma cell_is_Some r c M i j :
  shape r c M → i < r → j < c → is_Some (cell M i j).
Proof.
  intros HM Hi Hj. destruct (shape_lookup r c M i HM Hi) as (row & Hrow & Hl).
  unfold cell. rewrite Hrow. simpl. apply lookup_lt_is_Some_2. lia.
Qed.

(** Two tables of the same shape with the same cells are one table. *)
Lemma table_ext r c M1 M2 :
  shape r c M1 → shape r c M2 →
  (∀ i j, i < r → j < c → cell M1 i j = cell M2 i j) → M1 = M2.
Proof.
  intros H1 H2 Hcell. apply list_eq. intros i.
  destruct (decide (i < r)) as [Hi|Hi].
  - destruct (shape_lookup r c M1 i H1 Hi) as (r1 & Hr1 & Hl1).
    destruct (shape_lookup r c M2 i H2 Hi) as (r2 & Hr2 & Hl2).
    rewrite Hr1, Hr2. f_equal. apply list_eq. intros j.
    destruct (decide (j < c)) as [Hj|Hj].
    + specialize (Hcell i j Hi Hj). unfold cell in Hcell.
      by rewrite Hr1, Hr2 in Hcell.
    + rewrite !lookup_ge_None_2; [done|lia..].
  - destruct H1 as [H1 _], H2 as [H2 _].
    rewrite !lookup_ge_None_2; [done|lia..].
Qed.

(** An increment inside the table changes one cell and nothing else. *)
Lemma incr_Ok r c M i j :
  shape r c M → i < r → j < c →
  ∃ M' v, incr M i j = Ok M' ∧ cell M i j = Some v ∧ shape r c M' ∧
    cell M' i j = Some (wrap32 (v + 1)) ∧
    ∀ i' j', (i', j') ≠ (i, j) → cell M' i' j' = cell M i' j'.
Proof.
  intros HM Hi Hj.
  destruct (shape_lookup r c M i HM Hi) as (row & Hrow & Hl).
  destruct (lookup_lt_is_Some_2 row j) as [v Hv]; [lia|].
  exists (<[i := <[j := wrap32 (v + 1)]> row]> M), v.
  unfold incr, cell. rewrite Hrow. simpl. rewrite Hv.
  destruct HM as [Hr Hc]. repeat split.
  - by rewrite length_insert.
  - apply Forall_insert; [done|]. by rewrite length_insert.
  - rewrite list_lookup_insert_eq by lia. simpl.
    apply list_lookup_insert_eq. lia.
  - intros i' j' Hne. destruct (decide (i' = i)) as [->|Hi'].
    + rewrite list_lookup_insert_eq by lia. rewrite Hrow. simpl.
      apply list_lookup_insert_ne. congruence.
    + by rewrite list_lookup_insert_ne.
Qed.

(** An increment outside the table raises [IndexError]. *)
Lemma incr_Raise r c M i j :
  shape r c M → ¬ (i < r ∧ j < c) → incr M i j = Raise IndexError.
Proof.
  intros HM Hout. unfold incr. destruct (M !! i) as [row|] eqn:Hrow; [|done].
  destruct (row !! j) as [v|] eqn:Hv; [|done]. destruct Hout.
  destruct HM as [Hr Hc]. apply lookup_lt_Some in Hrow as Hi.
  eapply Forall_lookup_1 in Hc; eauto. apply lookup_lt_Some in Hv. lia.
Qed.
End table.

(** ** A sequence of increments *)

Section increments.
Implicit Types (M : list (list Z)) (i j r c n : nat).
Implicit Types (ps : list (nat * nat)).

Lemma for_each_app {S X} (body : S → X → result S) s (xs ys : list X) :
  for_each body s (xs ++ ys) = s' ← for_each body s xs; for_each body s' ys.
Proof.
  revert s. induction xs as [|x xs IH]; intros s; [done|].
  simpl. destruct (body s x) as [s'|e]; simpl; [apply IH|done].
Qed.

Lemma bump_all_cons M ij ps :
  bump_all M (ij :: ps) = M' ← incr M ij.1 ij.2; bump_all M' ps.
Proof. done. Qed.

Lemma bump_all_app M ps qs :
  bump_all M (ps ++ qs) = M' ← bump_all M ps; bump_all M' qs.
Proof. apply for_each_app. Qed.

Lemma occurrences_cons ij q ps :
  occurrences ij (q :: ps) =
    if decide (q = ij) then S (occurrences ij ps) else occurrences ij ps.
Proof. unfold occurrences. rewrite filter_cons. by case_decide. Qed.

Lemma occurrences_le ij ps : occurrences ij ps ≤ length ps.
Proof. apply length_filter. Qed.

(** When every pair lies in the table the increments all succeed, and
    each cell has been incremented once per occurrence of its pair. *)
Lemma bump_all_Ok r c ps : ∀ M,
  shape r c M → Forall (inside r c) ps →
  ∃ M', bump_all M ps = Ok M' ∧ shape r c M' ∧
    ∀ i j, cell M' i j = bumped (occurrences (i, j) ps) <$> cell M i j.
Proof.
  induction ps as [|[a b] ps IH]; intros M HM Hin.
  - exists M. repeat split; try apply HM.
    intros i j. by destruct (cell M i j).
  - apply Forall_cons in Hin as [[Ha Hb] Hin]. simpl in Ha, Hb.
    destruct (incr_Ok r c M a b HM Ha Hb)
      as (M1 & v & Hincr & Hv & HM1 & Hab & Hother).
    destruct (IH M1 HM1 Hin) as (M' & Hbump & HM' & Hcells).
    exists M'. rewrite bump_all_cons. simpl. rewrite Hincr. simpl.
    repeat split; try apply HM'; try done.
    intros i j. rewrite Hcells, occurrences_cons. case_decide as Heq.
    + injection Heq as <- <-. rewrite Hab, Hv.
      cbn [fmap option_fmap option_map]. by rewrite bumped_succ.
    + rewrite Hother; [done|]. congruence.
Qed.

(** Otherwise the first pair outside the table raises [IndexError]. *)
Lemma bump_all_Raise r c ps : ∀ M,
  shape r c M → ¬ Forall (inside r c) ps →
  bump_all M ps = Raise IndexError.
Proof.
  induction ps as [|[a b] ps IH]; intros M HM Hout.
  - destruct Hout. constructor.
  - rewrite bump_all_cons. simpl.
    destruct (decide (a < r ∧ b < c)) as [[Ha Hb]|Hab].
    + destruct (incr_Ok r c M a b HM Ha Hb) as (M1 & v & -> & _ & HM1 & _).
      simpl. apply IH; [done|]. intros Hin. apply Hout.
      by constructor.
    + by rewrite (incr_Raise r c).
Qed.
End increments.

(** ** The pass is a sequence of increments *)

Section pass.
Implicit Types (words : list (list N)) (w c : list N) (x a b : N).
Implicit Types (st : gmap N nat) (M : list (list Z)).

Lemma elem_of_wrapped w x : x ∈ wrapped w ↔ x = dot ∨ x ∈ w.
Proof.
  unfold wrapped. cbn [app]. rewrite elem_of_cons, elem_of_app.
  rewrite list_elem_of_singleton. tauto.
Qed.

Lemma elem_of_bigrams c a b : (a, b) ∈ bigrams c → a ∈ c ∧ b ∈ c.
Proof.
  unfold bigrams. intros Hin. split.
  - by apply elem_of_zip_l in Hin.
  - apply elem_of_zip_r in Hin. destruct c; [done|]. by right.
Qed.

Lemma elem_of_transitions words a b :
  (a, b) ∈ transitions words →
  (a = dot ∨ a ∈ join words) ∧ (b = dot ∨ b ∈ join words).
Proof.
  unfold transitions. rewrite list_elem_of_bind.
  intros (w & Hab & Hw). apply elem_of_bigrams in Hab as [Ha Hb].
  rewrite !elem_of_wrapped in Ha, Hb. unfold join.
  split; [destruct Ha as [?|Ha]|destruct Hb as [?|Hb]]; auto;
    right; apply list_elem_of_join; eauto.
Qed.

Lemma length_bigrams_wrapped w : length (bigrams (wrapped w)) = length w + 1.
Proof.
  unfold bigrams, wrapped. rewrite length_zip_with. cbn [app tail length].
  rewrite !length_app. cbn [length]. lia.
Qed.

Lemma length_transitions words : length (transitions words) = total words.
Proof.
  unfold transitions. induction words as [|w words IH]; [done|].
  simpl. rewrite length_app, length_bigrams_wrapped. unfold mbind in IH.
  rewrite IH. done.
Qed.

(** The inner loop visits the consecutive pairs of [c]. *)
Lemma inner_loop_bigrams st c : ∀ pre M,
  c ≠ [] → (∀ x, x ∈ c → is_Some (st !! x)) →
  for_each (count_at st (pre ++ c)) M (seq (length pre) (length c - 1))
  = bump_all M (index_pair st <$> bigrams c).
Proof.
  induction c as [|a c IH]; intros pre M Hne Hst; [done|].
  destruct c as [|b c]; [done|].
  replace (length (a :: b :: c) - 1) with (S (length c)) by (simpl; lia).
  cbn [seq for_each]. unfold bigrams. cbn [tail zip zip_with fmap list_fmap].
  rewrite bump_all_cons.
  destruct (Hst a) as [ia Hia]; [set_solver|].
  destruct (Hst b) as [ib Hib]; [set_solver|].
  assert (count_at st (pre ++ a :: b :: c) M (length pre) = incr M ia ib)
    as ->.
  { unfold count_at, list_getitem.
    rewrite (lookup_app_r pre _ (length pre)), Nat.sub_diag by lia. simpl.
    unfold getitem. rewrite Hia. simpl.
    rewrite (lookup_app_r pre _ (length pre + 1)) by lia.
    replace (length pre + 1 - length pre) with 1 by lia. simpl.
    by rewrite Hib. }
  unfold index_pair at 1. simpl. rewrite Hia, Hib. simpl.
  destruct (incr M ia ib) as [M1|e]; [|done]. simpl.
  specialize (IH (pre ++ [a]) M1). rewrite <- (assoc_L (++)) in IH.
  rewrite length_app in IH. simpl in IH.
  replace (length pre + 1) with (S (length pre)) in IH by lia.
  rewrite Nat.sub_0_r in IH. rewrite IH; [done..|].
  intros x Hx. apply Hst. by right.
Qed.

Lemma count_word_bump_all st M w :
  (∀ x, x ∈ wrapped w → is_Some (st !! x)) →
  count_word st M w = bump_all M (index_pair st <$> bigrams (wrapped w)).
Proof.
  intros Hst. unfold count_word, range_but_last.
  by apply (inner_loop_bigrams st (wrapped w) []).
Qed.

Lemma outer_loop_bump_all st ws : ∀ M,
  (∀ w x, w ∈ ws → x ∈ wrapped w → is_Some (st !! x)) →
  for_each (count_word st) M ws
  = bump_all M (index_pair st <$> (w ← ws; bigrams (wrapped w))).
Proof.
  induction ws as [|w ws IH]; intros M Hst; [done|].
  cbn [for_each mbind list_bind]. rewrite fmap_app, bump_all_app.
  rewrite count_word_bump_all by (intros x; apply Hst; by left).
  destruct (bump_all M _) as [M1|e]; [|done]. simpl.
  apply IH. intros w' x Hw'. apply Hst. by right.
Qed.

(** No lookup in [stoi] fails during the pass: the pass is the sequence
    of increments at the index pairs of the corpus. *)
Lemma counter_bump_all words : counter words = bump_all N_init (indices words).
Proof.
  unfold counter, indices, transitions. apply outer_loop_bump_all.
  intros w x Hw Hx. apply stoi_total. apply elem_of_wrapped in Hx as [?|Hx].
  - by left.
  - right. apply list_elem_of_join. eauto.
Qed.
End pass.

(** ** The table after the pass *)

Section counts.
Implicit Types (words : list (list N)) (M : list (list Z)).
Implicit Types (i j r c n : nat) (ps : list (nat * nat)).

Lemma follows_occurrences words i j :
  follows words i j = occurrences (i, j) (indices words).
Proof.
  unfold follows, occurrences, indices.
  assert (∀ a b, (a, b) ∈ transitions words →
            is_Some (stoi words !! a) ∧ is_Some (stoi words !! b)) as Hst.
  { intros a b Hab. apply elem_of_transitions in Hab as [Ha Hb].
    split; by apply stoi_total. }
  induction (transitions words) as [|[a b] ts IH]; [done|].
  destruct (Hst a b) as [[ia Hia] [ib Hib]]; [by left|].
  assert ((stoi words !! a = Some i ∧ stoi words !! b = Some j) ↔
          index_pair (stoi words) (a, b) = (i, j)) as Heq.
  { unfold index_pair. simpl. rewrite Hia, Hib. simpl. split.
    - by intros [[= ->] [= ->]].
    - by intros [= -> ->]. }
  assert (length (filter (λ ab : N * N, stoi words !! ab.1 = Some i
                            ∧ stoi words !! ab.2 = Some j) ts)
          = length (filter (λ q, q = (i, j)) (index_pair (stoi words) <$> ts)))
    as IH' by (apply IH; intros a' b' Hin; apply Hst; by right).
  rewrite fmap_cons, !filter_cons.
  case_decide as H1; case_decide as H2; simpl in *;
    rewrite ?IH'; try done; tauto.
Qed.

Lemma indices_bound words ij :
  ij ∈ indices words →
  ij.1 ≤ length (chars words) ∧ ij.2 ≤ length (chars words).
Proof.
  unfold indices. rewrite list_elem_of_fmap. intros ([a b] & -> & Hab).
  apply elem_of_transitions in Hab as [Ha Hb].
  apply stoi_total in Ha as [ia Hia], Hb as [ib Hib].
  unfold index_pair. simpl. rewrite Hia, Hib. simpl.
  split; eapply stoi_bound; eauto.
Qed.

(** With at most 26 distinct characters every index is below 27. *)
Lemma indices_inside words :
  length (chars words) < side → Forall (inside side side) (indices words).
Proof.
  intros Hlen. apply Forall_forall. intros ij Hij.
  apply indices_bound in Hij. unfold inside. lia.
Qed.

(** The pass succeeds exactly when every index pair lies in the table,
    and then cell [i, j] holds the count of [i, j] reduced to 32 bits. *)
Lemma counter_Ok words :
  Forall (inside side side) (indices words) →
  ∃ M, counter words = Ok M ∧ shape side side M ∧
    ∀ i j, i < side → j < side →
      cell M i j = Some (wrap32 (Z.of_nat (follows words i j))).
Proof.
  intros Hin. rewrite counter_bump_all.
  destruct (bump_all_Ok side side (indices words) N_init)
    as (M & HM & Hshape & Hcells); [apply shape_zeros|done|].
  exists M. repeat split; try apply Hshape; try done.
  intros i j Hi Hj. rewrite Hcells. unfold N_init.
  rewrite cell_zeros by done. simpl.
  by rewrite bumped_zero, follows_occurrences.
Qed.

Lemma counter_Raise words :
  ¬ Forall (inside side side) (indices words) →
  counter words = Raise IndexError.
Proof.
  intros Hout. rewrite counter_bump_all.
  apply (bump_all_Raise side side); [apply shape_zeros|done].
Qed.

Lemma counter_inv words M :
  counter words = Ok M →
  Forall (inside side side) (indices words) ∧ shape side side M ∧
    ∀ i j, i < side → j < side →
      cell M i j = Some (wrap32 (Z.of_nat (follows words i j))).
Proof.
  intros HM.
  destruct (decide (Forall (inside side side) (indices words))) as [Hin|Hout].
  - destruct (counter_Ok words Hin) as (M' & HM' & Hrest).
    rewrite HM in HM'. injection HM' as ->. by split.
  - rewrite counter_Raise in HM; done.
Qed.

Lemma counter_not_KeyError words : counter words ≠ Raise KeyError.
Proof.
  destruct (decide (Forall (inside side side) (indices words))) as [Hin|Hout].
  - destruct (counter_Ok words Hin) as (M' & -> & _). done.
  - by rewrite counter_Raise.
Qed.

Lemma follows_le_total words i j : follows words i j ≤ total words.
Proof.
  rewrite <- length_transitions. unfold follows. apply length_filter.
Qed.

Lemma cell_tabulate r c f i j :
  i < r → j < c → cell (tabulate r c f) i j = Some (f i j).
Proof.
  intros Hi Hj. unfold cell, tabulate. rewrite list_lookup_fmap.
  rewrite lookup_seq_lt by done. simpl. rewrite list_lookup_fmap.
  by rewrite lookup_seq_lt.
Qed.

Lemma shape_tabulate r c f : shape r c (tabulate r c f).
Proof.
  unfold tabulate. split.
  - by rewrite length_fmap, length_seq.
  - apply Forall_fmap, Forall_forall. intros i _. simpl.
    by rewrite length_fmap, length_seq.
Qed.
Lemma cell_outside r c M i j :
  shape r c M → ¬ (i < r ∧ j < c) → cell M i j = None.
Proof.
  intros [Hr Hc] Hout. unfold cell.
  destruct (M !! i) as [row|] eqn:Hrow; [|done]. simpl.
  apply lookup_ge_None_2. apply lookup_lt_Some in Hrow as Hi.
  eapply Forall_lookup_1 in Hc; [|done]. lia.
Qed.

Lemma cell_tabulate_full r c f i j :
  cell (tabulate r c f) i j
  = if decide (i < r ∧ j < c) then Some (f i j) else None.
Proof.
  case_decide as Hij.
  - destruct Hij. by apply cell_tabulate.
  - apply (cell_outside r c); [apply shape_tabulate|done].
Qed.
End counts.

(** ** Sums of cells *)

Section sums.
Implicit Types (M : list (list Z)) (row l : list Z) (i j n : nat) (v : Z).
Implicit Types (ps : list (nat * nat)) (words : list (list N)).

Lemma zsum_nonneg l : Forall (λ v, 0 ≤ v)%Z l → (0 ≤ zsum l)%Z.
Proof. induction 1; simpl; lia. Qed.

Lemma zsum_insert l i v v' :
  l !! i = Some v → zsum (<[i := v']> l) = (zsum l - v + v')%Z.
Proof.
  revert i. induction l as [|u l IH]; intros [|i] Hi; simplify_eq/=.
  - lia.
  - rewrite (IH i) by done. lia.
Qed.

Lemma zsum_lookup_le l i v :
  Forall (λ v, 0 ≤ v)%Z l → l !! i = Some v → (0 ≤ v ≤ zsum l)%Z.
Proof.
  intros Hl. revert i. induction Hl as [|u l Hu Hl IH]; intros [|i] Hi;
    simplify_eq/=.
  - apply zsum_nonneg in Hl. lia.
  - specialize (IH i Hi). lia.
Qed.

Lemma table_sum_insert M i row row' :
  M !! i = Some row →
  table_sum (<[i := row']> M) = (table_sum M - zsum row + zsum row')%Z.
Proof.
  intros Hrow. unfold table_sum. rewrite list_fmap_insert.
  apply zsum_insert. by rewrite list_lookup_fmap, Hrow.
Qed.

Lemma table_sum_lookup_le M i row :
  nonneg M → M !! i = Some row → (0 ≤ zsum row ≤ table_sum M)%Z.
Proof.
  intros HM Hrow. unfold table_sum. apply (zsum_lookup_le _ i).
  - apply Forall_fmap. eapply Forall_impl; [apply HM|].
    intros l. apply zsum_nonneg.
  - by rewrite list_lookup_fmap, Hrow.
Qed.

(** Below the 32-bit limit an increment adds one to the sum. *)
Lemma incr_sum M M' i j :
  nonneg M → (table_sum M + 1 < 2 ^ 31)%Z → incr M i j = Ok M' →
  nonneg M' ∧ table_sum M' = (table_sum M + 1)%Z.
Proof.
  intros HM Hlim. unfold incr.
  destruct (M !! i) as [row|] eqn:Hrow; [|done].
  destruct (row !! j) as [v|] eqn:Hv; [|done]. intros [= <-].
  assert (Forall (λ v, 0 ≤ v)%Z row) as Hnn
    by (eapply Forall_lookup_1 in HM; eauto).
  pose proof (zsum_lookup_le row j v Hnn Hv) as Hle.
  pose proof (table_sum_lookup_le M i row HM Hrow) as Hle'.
  rewrite wrap32_small by lia. split.
  - apply Forall_insert; [done|]. apply Forall_insert; [done|]. lia.
  - rewrite (table_sum_insert M i row) by done.
    rewrite (zsum_insert row j v) by done. lia.
Qed.

Lemma bump_all_sum ps : ∀ M M',
  nonneg M → (table_sum M + Z.of_nat (length ps) < 2 ^ 31)%Z →
  bump_all M ps = Ok M' →
  nonneg M' ∧ table_sum M' = (table_sum M + Z.of_nat (length ps))%Z.
Proof.
  induction ps as [|[a b] ps IH]; intros M M' HM Hlim.
  - intros [= <-]. split; [done|]. simpl. lia.
  - rewrite bump_all_cons. simpl.
    destruct (incr M a b) as [M1|e] eqn:Hincr; [|done]. simpl. intros Hps.
    cbn [length] in Hlim.
    destruct (incr_sum M M1 a b HM) as [HM1 Hsum1]; [lia|done|].
    destruct (IH M1 M' HM1) as [HM' Hsum']; [lia|done|].
    split; [done|]. cbn [length]. lia.
Qed.

Lemma nonneg_N_init : nonneg N_init.
Proof.
  unfold N_init, zeros. apply Forall_replicate, Forall_replicate. lia.
Qed.

Lemma table_sum_N_init : table_sum N_init = 0%Z.
Proof. by vm_compute. Qed.

(** With fewer than [2^31] transitions no cell wraps around. *)
Lemma counter_sum words M :
  counter words = Ok M → (Z.of_nat (total words) < 2 ^ 31)%Z →
  nonneg M ∧ table_sum M = Z.of_nat (total words).
Proof.
  rewrite counter_bump_all. intros HM Hlim.
  assert (length (indices words) = total words) as Hlen
    by (unfold indices; by rewrite length_fmap, length_transitions).
  destruct (bump_all_sum (indices words) N_init M nonneg_N_init)
    as [Hnn Hsum]; [rewrite table_sum_N_init, Hlen; lia|done|].
  split; [done|]. rewrite Hsum, table_sum_N_init, Hlen. lia.
Qed.
End sums.

(** ** A corpus of empty lines *)

Section empty_lines.
Implicit Types (n : nat) (v : Z).

Lemma join_empty_lines n : join (empty_lines n) = [].
Proof. unfold join, empty_lines. induction n as [|n IH]; [done|]. done. Qed.

Lemma stoi_empty_lines n : stoi (empty_lines n) = stoi [].
Proof. unfold stoi, stoi0, chars. by rewrite join_empty_lines. Qed.

Lemma transitions_empty_lines n :
  transitions (empty_lines n) = replicate n (dot, dot).
Proof.
  unfold transitions, empty_lines.
  induction n as [|n IH]; [done|]. simpl. by f_equal.
Qed.

Lemma indices_empty_lines n : indices (empty_lines n) = replicate n (0, 0).
Proof.
  unfold indices.
  by rewrite stoi_empty_lines, transitions_empty_lines, fmap_replicate.
Qed.

Lemma occurrences_replicate n ij :
  occurrences ij (replicate n ij) = n.
Proof.
  induction n as [|n IH]; [done|].
  cbn [replicate]. rewrite occurrences_cons, IH. by case_decide.
Qed.

Lemma occurrences_replicate_ne n ij q :
  q ≠ ij → occurrences ij (replicate n q) = 0.
Proof.
  intros Hne. induction n as [|n IH]; [done|].
  cbn [replicate]. rewrite occurrences_cons, IH. by case_decide.
Qed.

(** [n] empty lines leave [n], reduced to 32 bits, in cell [0, 0]. *)
Lemma counter_empty_lines n :
  counter (empty_lines n) = Ok (corner (wrap32 (Z.of_nat n))).
Proof.
  destruct (counter_Ok (empty_lines n)) as (M & HM & Hshape & Hcells).
  { rewrite indices_empty_lines. apply Forall_replicate.
    unfold inside, side. simpl. lia. }
  rewrite HM. f_equal. apply (table_ext side side); [done|apply shape_tabulate|].
  intros i j Hi Hj. rewrite Hcells by done. unfold corner.
  rewrite cell_tabulate by done. f_equal.
  rewrite follows_occurrences, indices_empty_lines. case_decide as Hij.
  - injection Hij as -> ->. by rewrite occurrences_replicate.
  - by rewrite occurrences_replicate_ne.
Qed.

Lemma of_nat_pow2 (k : Z) : Z.of_nat (Z.to_nat (2 ^ k)) = (2 ^ k)%Z.
Proof. apply Z2Nat.id, Z.pow_nonneg. lia. Qed.

Lemma total_empty_lines n : total (empty_lines n) = n.
Proof.
  unfold empty_lines. induction n as [|n IH]; [done|]. simpl. by rewrite IH.
Qed.

Lemma follows_empty_lines n : follows (empty_lines n) 0 0 = n.
Proof.
  by rewrite follows_occurrences, indices_empty_lines, occurrences_replicate.
Qed.

Lemma corner_insert v :
  corner v = <[0 := <[0 := v]> (replicate side 0%Z)]> N_init.
Proof. by vm_compute. Qed.

Lemma table_sum_corner v : table_sum (corner v) = v.
Proof.
  assert (zsum (replicate side 0%Z) = 0%Z) as Hrow by (by vm_compute).
  rewrite corner_insert.
  rewrite (table_sum_insert _ 0 (replicate side 0%Z)) by done.
  rewrite (zsum_insert _ 0 0%Z) by done.
  rewrite table_sum_N_init, Hrow. lia.
Qed.
(** With [2^31] empty lines cell [0, 0] holds [- 2^31]. *)
Lemma empty_lines_overflow n :
  Z.of_nat n = (2 ^ 31)%Z →
  counter (empty_lines n) = Ok (corner (- 2 ^ 31)) ∧
  cell (corner (- 2 ^ 31)) 0 0 = Some (- 2 ^ 31)%Z ∧
  table_sum (corner (- 2 ^ 31)) = (- 2 ^ 31)%Z ∧
  Z.of_nat (follows (empty_lines n) 0 0) = (2 ^ 31)%Z ∧
  Z.of_nat (total (empty_lines n)) = (2 ^ 31)%Z.
Proof.
  intros Hn.
  assert (wrap32 (2 ^ 31) = - 2 ^ 31)%Z as Hw by (vm_compute; reflexivity).
  rewrite counter_empty_lines, follows_empty_lines, total_empty_lines, Hn, Hw.
  rewrite table_sum_corner.
  assert (cell (corner (- 2 ^ 31)) 0 0 = Some (- 2 ^ 31)%Z) as Hcell
    by (unfold corner; rewrite cell_tabulate_full; reflexivity).
  rewrite Hcell. repeat split; reflexivity.
Qed.

End empty_lines.

(** ** Reordering the corpus *)

Section reordering.
Implicit Types (words : list (list N)) (M : list (list Z)).
Implicit Types (r c : nat) (ps qs : list (nat * nat)).

(** [sorted] does not depend on the order in which the set is listed. *)
Lemma sorted_any_order (l1 l2 : list N) : l1 ≡ₚ l2 → sorted l1 = sorted l2.
Proof.
  intros Hp. unfold sorted. apply (Sorted_unique N.le).
  - apply (Sorted_merge_sort N.le).
  - apply (Sorted_merge_sort N.le).
  - by rewrite !merge_sort_Permutation.
Qed.

Lemma chars_perm words words' : words ≡ₚ words' → chars words = chars words'.
Proof.
  intros Hp. unfold chars, join.
  assert (list_to_set (mjoin words) = (list_to_set (mjoin words') : gset N))
    as ->; [|done].
  apply set_eq. intros x. by rewrite !elem_of_list_to_set, Hp.
Qed.

Lemma stoi_perm words words' : words ≡ₚ words' → stoi words = stoi words'.
Proof. intros Hp. unfold stoi, stoi0. by rewrite (chars_perm _ _ Hp). Qed.

Lemma indices_perm words words' :
  words ≡ₚ words' → indices words ≡ₚ indices words'.
Proof.
  intros Hp. unfold indices, transitions.
  by rewrite (stoi_perm _ _ Hp), Hp.
Qed.

Lemma occurrences_perm ij ps qs :
  ps ≡ₚ qs → occurrences ij ps = occurrences ij qs.
Proof. intros Hp. unfold occurrences. by rewrite Hp. Qed.

(** Increments commute: the outcome depends on the pairs, not on their
    order. *)
Lemma bump_all_perm r c M ps qs :
  shape r c M → ps ≡ₚ qs → bump_all M ps = bump_all M qs.
Proof.
  intros HM Hp.
  destruct (decide (Forall (inside r c) ps)) as [Hin|Hout].
  - destruct (bump_all_Ok r c ps M HM Hin) as (M1 & -> & H1 & Hc1).
    rewrite Hp in Hin.
    destruct (bump_all_Ok r c qs M HM Hin) as (M2 & -> & H2 & Hc2).
    f_equal. apply (table_ext r c); [done..|].
    intros i j _ _. by rewrite Hc1, Hc2, (occurrences_perm _ _ _ Hp).
  - rewrite (bump_all_Raise r c ps) by done.
    rewrite (bump_all_Raise r c qs); [done..|]. by rewrite <- Hp.
Qed.
End reordering.

(** ** The exact distribution *)

Section exact.
Implicit Types (row : list Z) (s : Z).


End exact.

(** ** Counts below the 32-bit limit *)

Section below_the_limit.
Implicit Types (words : list (list N)) (M : list (list Z)) (i j : nat).

Lemma cell_exact words M i j :
  counter words = Ok M → (Z.of_nat (total words) < 2 ^ 31)%Z →
  i < side → j < side →
  cell M i j = Some (Z.of_nat (follows words i j)).
Proof.
  intros HM Hlim Hi Hj. apply counter_inv in HM as (_ & _ & Hcells).
  rewrite Hcells by done. f_equal. apply wrap32_small.
  pose proof (follows_le_total words i j). lia.
Qed.

Lemma follows_pos words a b i j :
  (a, b) ∈ transitions words →
  stoi words !! a = Some i → stoi words !! b = Some j →
  1 ≤ follows words i j.
Proof.
  intros Hab Ha Hb. unfold follows.
  assert ((a, b) ∈ filter (λ ab : N * N, stoi words !! ab.1 = Some i
                             ∧ stoi words !! ab.2 = Some j)
                          (transitions words)) as Hin
    by (by apply list_elem_of_filter).
  destruct (filter _ _); [by apply elem_of_nil in Hin|]. simpl. lia.
Qed.

Lemma first_transition words :
  words ≠ [] → ∃ x, (dot, x) ∈ transitions words.
Proof.
  destruct words as [|w ws]; [done|]. intros _.
  unfold transitions. cbn [mbind list_bind].
  destruct w as [|x w]; [exists dot|exists x]; apply elem_of_app; left;
    by left.
Qed.

(** A cell of row 0 that is at least one makes the sum of the row
    positive. *)
Lemma row0_positive_of_cell words M j :
  counter words = Ok M → (Z.of_nat (total words) < 2 ^ 31)%Z →
  j < side → 1 ≤ follows words 0 j →
  ∃ row, M !! 0 = Some row ∧
    row !! j = Some (Z.of_nat (follows words 0 j)) ∧ (0 < zsum row)%Z.
Proof.
  intros HM Hlim Hj Hpos.
  assert (0 < side) as H0 by (unfold side; lia).
  pose proof (cell_exact words M 0 j HM Hlim H0 Hj) as Hcell.
  destruct (counter_sum words M HM Hlim) as [Hnn _].
  unfold cell in Hcell. destruct (M !! 0) as [row|] eqn:Hrow; [|done].
  simpl in Hcell. exists row. repeat split; [done|].
  eapply Forall_lookup_1 in Hnn; [|exact Hrow].
  pose proof (zsum_lookup_le row j _ Hnn Hcell). lia.
Qed.

(** A non-empty corpus with fewer than [2^31] transitions leaves a
    positive sum in row 0. *)
Lemma row0_positive words M :
  words ≠ [] → counter words = Ok M →
  (Z.of_nat (total words) < 2 ^ 31)%Z →
  ∃ row, M !! 0 = Some row ∧ (0 < zsum row)%Z.
Proof.
  intros Hne HM Hlim. destruct (first_transition words Hne) as [x Hx].
  pose proof (counter_inv words M HM) as (Hin & _ & _).
  apply elem_of_transitions in Hx as Hx'. destruct Hx' as [_ Hx'].
  apply stoi_total in Hx' as [j Hj].
  assert (j < side) as Hlt.
  { rewrite Forall_forall in Hin. specialize (Hin (0, j)).
    unfold inside in Hin. simpl in Hin. apply Hin. unfold indices.
    apply list_elem_of_fmap. exists (dot, x). split; [|done].
    unfold index_pair. simpl. by rewrite stoi_dot, Hj. }
  destruct (row0_positive_of_cell words M j HM Hlim Hlt)
    as (row & Hrow & _ & Hsum).
  - eapply follows_pos; [done|apply stoi_dot|done].
  - eauto.
Qed.

(** The extraction has no failing path on a table that has a row 0. *)
Lemma p_never_raises M :
  shape side side M → ∃ ps, p M = Ok ps ∧ length ps = side.
Proof.
  intros HM. destruct (shape_lookup side side M 0 HM) as (row & Hrow & Hl);
    [unfold side; lia|].
  unfold p, list_getitem. rewrite Hrow. simpl. eexists. split; [done|].
  by rewrite !length_fmap.
Qed.
End below_the_limit.

(** ** The properties of the script *)


(** C1 (as amended): when the counting pass finishes, cell [i, j] of the
    table holds the number of times a character of index [j] immediately
    follows a character of index [i] in the words wrapped between two
    boundary symbols, reduced to a signed 32-bit integer; it is that number
    itself whenever the number is below [2^31]. *)
Theorem counter_cells (words : list (list N)) (M : list (list Z)) (i j : nat) :
  counter words = Ok M → i < side → j < side →
  cell M i j = Some (wrap32 (Z.of_nat (follows words i j))) ∧
  ((Z.of_nat (follows words i j) < 2 ^ 31)%Z →
   cell M i j = Some (Z.of_nat (follows words i j))).
Proof.
  intros HM Hi Hj. apply counter_inv in HM as (_ & _ & Hcells).
  split; [by apply Hcells|]. intros Hlim. rewrite Hcells by done.
  f_equal. apply wrap32_small. lia.
Qed.

Lemma counter_cells_witness :
  cell table_ab_ab 0 1
    = Some (wrap32 (Z.of_nat (follows corpus_ab_ab 0 1))) ∧
  ((Z.of_nat (follows corpus_ab_ab 0 1) < 2 ^ 31)%Z →
   cell table_ab_ab 0 1 = Some (Z.of_nat (follows corpus_ab_ab 0 1))).
Proof.
  apply (counter_cells corpus_ab_ab table_ab_ab 0 1).
  - vm_compute. reflexivity.
  - unfold side. lia.
  - unfold side. lia.
Defined.

(** C1 as stated fails on a file of [2^31] empty lines: the boundary
    symbol follows itself [2^31] times, and cell [0, 0] holds [- 2^31]. *)
Lemma counter_cells_overflow :
  counter lines_2_31 = Ok (corner (- 2 ^ 31)) ∧
  cell (corner (- 2 ^ 31)) 0 0 = Some (- 2 ^ 31)%Z ∧
  Z.of_nat (follows lines_2_31 0 0) = (2 ^ 31)%Z.
Proof.
  unfold lines_2_31.
  destruct (empty_lines_overflow _ (of_nat_pow2 31)) as (H1 & H2 & _ & H4 & _).
  split; [exact H1|]. split; [exact H2|exact H4].
Qed.

(** C2 as stated fails on a file of [2^31] empty lines: the characters and
    words number [2^31], the cells sum to [- 2^31]. *)
Lemma table_sum_overflow :
  counter lines_2_31 = Ok (corner (- 2 ^ 31)) ∧
  table_sum (corner (- 2 ^ 31)) = (- 2 ^ 31)%Z ∧
  Z.of_nat (total lines_2_31) = (2 ^ 31)%Z.
Proof.
  unfold lines_2_31.
  destruct (empty_lines_overflow _ (of_nat_pow2 31)) as (H1 & _ & H3 & _ & H5).
  split; [exact H1|]. split; [exact H3|exact H5].
Qed.

(** C3: [stoi] and [itos] are inverse to each other, on every character of
    the vocabulary, the boundary symbol included, and on every assigned
    index. *)
Theorem stoi_itos_inverse (words : list (list N)) :
  stoi words !! dot = Some 0 ∧
  itos words !! 0 = Some dot ∧
  ∀ (x : N) (i : nat), stoi words !! x = Some i ↔ itos words !! i = Some x.
Proof.
  assert (∀ x i, stoi words !! x = Some i ↔ itos words !! i = Some x) as Hinv.
  { intros x i. unfold itos. by rewrite (itos_of_lookup words). }
  repeat split; try apply Hinv; try apply stoi_dot.
  apply Hinv, stoi_dot.
Qed.

(** C5 (as amended): the table is 27 x 27 whatever the corpus; every
    character that is counted has an index in [stoi], so that no lookup
    fails; and when the corpus has at most 26 distinct characters every
    index is below 27, every access lies in the table and the pass ends
    without an error. *)
Theorem counter_in_bounds (words : list (list N)) :
  shape side side N_init ∧
  (∀ (w : list N) (x : N), w ∈ words → x ∈ wrapped w →
     is_Some (stoi words !! x)) ∧
  counter words ≠ Raise KeyError ∧
  (length (chars words) ≤ 26 →
   Forall (inside side side) (indices words) ∧
   ∃ M, counter words = Ok M ∧ shape side side M).
Proof.
  split; [apply shape_zeros|]. split; [|split].
  - intros w x Hw Hx. apply stoi_total. apply elem_of_wrapped in Hx as [?|Hx].
    + by left.
    + right. apply list_elem_of_join. eauto.
  - apply counter_not_KeyError.
  - intros Hlen.
    assert (Forall (inside side side) (indices words)) as Hin
      by (apply indices_inside; unfold side; lia).
    split; [done|].
    destruct (counter_Ok words Hin) as (M & HM & Hshape & _). eauto.
Qed.

Lemma counter_in_bounds_witness :
  length (chars corpus_names) ≤ 26 ∧
  Forall (inside side side) (indices corpus_names) ∧
  ∃ M, counter corpus_names = Ok M ∧ shape side side M.
Proof.
  assert (length (chars corpus_names) ≤ 26) as Hlen by (vm_compute; lia).
  split; [exact Hlen|].
  exact (proj2 (proj2 (proj2 (counter_in_bounds corpus_names))) Hlen).
Defined.

(** C5 as stated fails on a corpus of 27 distinct characters: the table has
    27 rows and not 28, the letter z has index 27, and the pass stops on an
    [IndexError]. *)
Lemma counter_out_of_bounds :
  length (chars corpus_hyphen) = 27 ∧
  shape 27 27 N_init ∧
  stoi corpus_hyphen !! chr "z" = Some 27 ∧
  cell N_init 26 27 = None ∧
  counter corpus_hyphen = Raise IndexError.
Proof.
  split; [vm_compute; reflexivity|]. split; [apply shape_zeros|].
  split; [vm_compute; reflexivity|]. split; vm_compute; reflexivity.
Qed.

(** C7: for the corpus of the one word a, the boundary symbol has index 0
    and the letter a index 1; cells [0, 1] and [1, 0] of the table hold 1
    and every other cell holds 0. *)
Theorem corpus_a_table :
  stoi corpus_a !! dot = Some 0 ∧
  stoi corpus_a !! chr "a" = Some 1 ∧
  ∃ M, counter corpus_a = Ok M ∧
    ∀ i j : nat,
      cell M i j =
        if decide (i < side ∧ j < side)
        then Some (if decide ((i, j) = (0, 1) ∨ (i, j) = (1, 0))
                   then 1%Z else 0%Z)
        else None.
Proof.
  split; [by vm_compute|]. split; [by vm_compute|].
  exists table_a. split; [by vm_compute|].
  intros i j. unfold table_a. by rewrite cell_tabulate_full.
Qed.

(** C8: for the corpus of twice the word ab, with indices 0 for the
    boundary symbol, 1 for a and 2 for b, cells [0, 1], [1, 2] and [2, 0] of
    the table hold 2 and every other cell holds 0. *)
Theorem corpus_ab_ab_table :
  stoi corpus_ab_ab !! dot = Some 0 ∧
  stoi corpus_ab_ab !! chr "a" = Some 1 ∧
  stoi corpus_ab_ab !! chr "b" = Some 2 ∧
  ∃ M, counter corpus_ab_ab = Ok M ∧
    ∀ i j : nat,
      cell M i j =
        if decide (i < side ∧ j < side)
        then Some (if decide ((i, j) = (0, 1) ∨ (i, j) = (1, 2)
                              ∨ (i, j) = (2, 0))
                   then 2%Z else 0%Z)
        else None.
Proof.
  split; [by vm_compute|]. split; [by vm_compute|]. split; [by vm_compute|].
  exists table_ab_ab. split; [by vm_compute|].
  intros i j. unfold table_ab_ab. by rewrite cell_tabulate_full.
Qed.

(** C10: reordering the words of the corpus changes neither the outcome of
    the counting pass (the table, or the exception raised) nor the vector
    extracted from it. *)
Theorem counter_permutation (words words' : list (list N)) :
  words ≡ₚ words' →
  stoi words = stoi words' ∧
  counter words = counter words' ∧
  starting_distribution words = starting_distribution words'.
Proof.
  intros Hp.
  assert (counter words = counter words') as Hc.
  { rewrite !counter_bump_all.
    apply (bump_all_perm side side); [apply shape_zeros|].
    by apply indices_perm. }
  split; [by apply stoi_perm|]. split; [done|].
  unfold starting_distribution, script, itos.
  by rewrite Hc, (stoi_perm _ _ Hp).
Qed.

Lemma counter_permutation_witness :
  stoi [str "emma"; str "olivia"] = stoi [str "olivia"; str "emma"] ∧
  counter [str "emma"; str "olivia"] = counter [str "olivia"; str "emma"] ∧
  starting_distribution [str "emma"; str "olivia"]
    = starting_distribution [str "olivia"; str "emma"].
Proof.
  apply (counter_permutation [str "emma"; str "olivia"]
           [str "olivia"; str "emma"]).
  apply perm_swap.
Defined.

(** ** More about the vocabulary *)

Section vocabulary_order.
Implicit Types (words : list (list N)) (x y : N) (i j k : nat).

Lemma StronglySorted_lookup_le (l : list N) i j x y :
  StronglySorted N.le l → i < j → l !! i = Some x → l !! j = Some y →
  (x ≤ y)%N.
Proof.
  intros Hl. revert i j. induction Hl as [|z l Hl IH Hz]; intros i j Hij Hi Hj.
  - by rewrite lookup_nil in Hi.
  - destruct j as [|j]; [lia|]. destruct i as [|i]; simpl in *.
    + injection Hi as ->. rewrite Forall_forall in Hz. apply Hz.
      by eapply list_elem_of_lookup_2.
    + apply (IH i j); [lia|done..].
Qed.

Lemma chars_StronglySorted words : StronglySorted N.le (chars words).
Proof. apply (StronglySorted_merge_sort N.le). Qed.

(** The sorted characters increase strictly. *)
Lemma chars_lookup_lt words i j x y :
  chars words !! i = Some x → chars words !! j = Some y →
  i < j ↔ (x < y)%N.
Proof.
  intros Hi Hj. split.
  - intros Hij.
    pose proof (StronglySorted_lookup_le _ i j x y
                  (chars_StronglySorted words) Hij Hi Hj) as Hle.
    assert (x ≠ y); [|lia]. intros ->.
    pose proof (NoDup_lookup _ i j y (chars_NoDup words) Hi Hj). lia.
  - intros Hxy. destruct (decide (i < j)) as [|Hge]; [done|].
    destruct (decide (i = j)) as [->|Hne]; [rewrite Hi in Hj; simplify_eq; lia|].
    pose proof (StronglySorted_lookup_le _ j i y x
                  (chars_StronglySorted words)) as Hle.
    specialize (Hle ltac:(lia) Hj Hi). lia.
Qed.

Lemma itos_lookup words k x :
  itos words !! k = Some x ↔ stoi words !! x = Some k.
Proof. unfold itos. by apply itos_of_lookup. Qed.

(** The indices in use: 0 for the boundary symbol, and the rank plus one of
    every other character. *)
Lemma itos_domain words k x :
  itos words !! k = Some x ↔
    (k = 0 ∧ x = dot) ∨
    (x ≠ dot ∧ ∃ i, k = i + 1 ∧ chars words !! i = Some x).
Proof. rewrite itos_lookup, stoi_lookup. tauto. Qed.

Lemma elem_of_chars_dot words : dot ∈ join words ↔ dot ∈ chars words.
Proof. by rewrite elem_of_chars. Qed.

Lemma chars_same_characters words words' :
  (∀ x, x ∈ join words ↔ x ∈ join words') → chars words = chars words'.
Proof.
  intros Hsame. unfold chars.
  assert (list_to_set (join words) = (list_to_set (join words') : gset N))
    as ->; [|done].
  apply set_eq. intros x. by rewrite !elem_of_list_to_set.
Qed.

Lemma itos_ext words words' : stoi words = stoi words' → itos words = itos words'.
Proof. intros Hst. unfold itos. by rewrite Hst. Qed.
End vocabulary_order.

(** X1: the indices follow the order of the code points: of two characters
    of the vocabulary other than the boundary symbol, the smaller one has
    the smaller index. *)
Theorem stoi_monotone (words : list (list N)) (x y : N) (i j : nat) :
  stoi words !! x = Some i → stoi words !! y = Some j →
  x ≠ dot → y ≠ dot →
  (x < y)%N ↔ i < j.
Proof.
  rewrite !stoi_lookup.
  intros [[? _]|[_ (i' & -> & Hi)]] [[? _]|[_ (j' & -> & Hj)]] Hx Hy; try done.
  rewrite <- (chars_lookup_lt words i' j' x y Hi Hj). lia.
Qed.

Lemma stoi_monotone_witness :
  (chr "e" < chr "o")%N ↔ 2 < 6.
Proof.
  apply (stoi_monotone corpus_names (chr "e") (chr "o") 2 6).
  - vm_compute. reflexivity.
  - vm_compute. reflexivity.
  - vm_compute. discriminate.
  - vm_compute. discriminate.
Defined.

(** X2: when the corpus itself contains the character ".", that character
    keeps index 0, the index of the boundary symbol, and the index its rank
    among the sorted characters would give it is assigned to no
    character. *)
Theorem dot_in_corpus_leaves_hole (words : list (list N)) :
  dot ∈ join words →
  stoi words !! dot = Some 0 ∧
  ∃ i, chars words !! i = Some dot ∧ itos words !! (i + 1) = None ∧
       ∀ x, stoi words !! x ≠ Some (i + 1).
Proof.
  intros Hdot. split; [apply stoi_dot|].
  apply elem_of_chars, list_elem_of_lookup in Hdot as [i Hi]. exists i.
  assert (∀ x, stoi words !! x ≠ Some (i + 1)) as Hfree.
  { intros x. rewrite stoi_lookup. intros [[_ ?]|[Hx (i' & Heq & Hi')]]; [lia|].
    assert (i' = i) as -> by lia. congruence. }
  repeat split; [done| |done].
  destruct (itos words !! (i + 1)) as [x|] eqn:Hx; [|done].
  apply itos_lookup in Hx. by destruct (Hfree x).
Qed.

Lemma dot_in_corpus_leaves_hole_witness :
  stoi [str "a.b"] !! dot = Some 0 ∧
  ∃ i, chars [str "a.b"] !! i = Some dot ∧ itos [str "a.b"] !! (i + 1) = None ∧
       ∀ x, stoi [str "a.b"] !! x ≠ Some (i + 1).
Proof.
  apply (dot_in_corpus_leaves_hole [str "a.b"]).
  apply list_elem_of_further, list_elem_of_here.
Defined.

(** X3: when no word contains the character ".", the assigned indices are
    exactly the numbers from 0 to the number of distinct characters of the
    corpus. *)
Theorem itos_assigned_range (words : list (list N)) (k : nat) :
  dot ∉ join words →
  is_Some (itos words !! k) ↔ k ≤ length (chars words).
Proof.
  intros Hdot. split.
  - intros [x Hx]. apply itos_lookup in Hx. by eapply stoi_bound.
  - intros Hk. destruct k as [|k].
    + exists dot. apply itos_lookup, stoi_dot.
    + destruct (lookup_lt_is_Some_2 (chars words) k) as [x Hx]; [lia|].
      exists x. apply itos_domain. right. split.
      * intros ->. apply Hdot, elem_of_chars.
        by eapply list_elem_of_lookup_2.
      * exists k. split; [lia|done].
Qed.

Lemma itos_assigned_range_witness :
  is_Some (itos corpus_names !! 7) ↔ 7 ≤ length (chars corpus_names).
Proof.
  apply (itos_assigned_range corpus_names 7).
  apply (bool_decide_unpack _). vm_compute. reflexivity.
Defined.

(** X4: the vocabulary depends on the set of characters of the corpus
    only: two corpora with the same characters get the same [chars], [stoi]
    and [itos], however the characters are spread over words. *)
Theorem vocabulary_same_characters (words words' : list (list N)) :
  (∀ x : N, x ∈ join words ↔ x ∈ join words') →
  chars words = chars words' ∧ stoi words = stoi words' ∧
  itos words = itos words'.
Proof.
  intros Hsame. pose proof (chars_same_characters _ _ Hsame) as Hc.
  assert (stoi words = stoi words') as Hst
    by (unfold stoi, stoi0; by rewrite Hc).
  split; [done|]. split; [done|]. by apply itos_ext.
Qed.

Lemma vocabulary_same_characters_witness :
  chars [str "ab"; str "ba"] = chars [str "abba"] ∧
  stoi [str "ab"; str "ba"] = stoi [str "abba"] ∧
  itos [str "ab"; str "ba"] = itos [str "abba"].
Proof.
  apply (vocabulary_same_characters [str "ab"; str "ba"] [str "abba"]).
  intros x. rewrite <- !elem_of_chars.
  assert (chars [str "ab"; str "ba"] = chars [str "abba"]) as ->
    by (vm_compute; reflexivity).
  reflexivity.
Defined.

(** ** When the pass fails *)

Section failure.
Implicit Types (words : list (list N)) (w c : list N) (x a b : N).
Implicit Types (i j : nat).

Lemma wrap32_range (z : Z) : (- 2 ^ 31 ≤ wrap32 z < 2 ^ 31)%Z.
Proof.
  unfold wrap32. pose proof (Z.mod_pos_bound (z + 2 ^ 31) (2 ^ 32)). lia.
Qed.

(** Every character of a list is followed by something once the list is
    closed by one more character. *)
Lemma elem_of_bigrams_closed (l : list N) (d x : N) :
  x ∈ l → ∃ b, (x, b) ∈ bigrams (l ++ [d]).
Proof.
  induction l as [|y l IH]; intros Hx; [by apply elem_of_nil in Hx|].
  assert (∃ z r, l ++ [d] = z :: r) as (z & r & Hzr)
    by (destruct l; simpl; eauto).
  assert (bigrams ((y :: l) ++ [d]) = (y, z) :: bigrams (l ++ [d])) as ->
    by (unfold bigrams; simpl; by rewrite Hzr).
  apply elem_of_cons in Hx as [->|Hx].
  - exists z. by left.
  - destruct (IH Hx) as [b Hb]. exists b. by right.
Qed.

Lemma elem_of_transitions_first words x :
  x ∈ join words → ∃ b, (x, b) ∈ transitions words.
Proof.
  unfold join. rewrite list_elem_of_join. intros (w & Hx & Hw).
  destruct (elem_of_bigrams_closed w dot x Hx) as [b Hb]. exists b.
  unfold transitions. apply list_elem_of_bind. exists w. split; [|done].
  unfold wrapped. cbn [app].
  assert (∃ z r, w ++ [dot] = z :: r) as (z & r & Hzr)
    by (destruct w; simpl; eauto).
  unfold bigrams in *. simpl. rewrite Hzr in *. by right.
Qed.

Lemma indices_of_transition words a b ia ib :
  (a, b) ∈ transitions words →
  stoi words !! a = Some ia → stoi words !! b = Some ib →
  (ia, ib) ∈ indices words.
Proof.
  intros Hab Ha Hb. unfold indices. apply list_elem_of_fmap.
  exists (a, b). split; [|done]. unfold index_pair. simpl. by rewrite Ha, Hb.
Qed.

(** The pass finishes exactly when every character other than "." has a
    rank below 26 among the sorted characters. *)
Lemma indices_inside_iff words :
  Forall (inside side side) (indices words) ↔
  ∀ i x, chars words !! i = Some x → x ≠ dot → i < 26.
Proof.
  split.
  - intros Hin i x Hi Hx.
    assert (x ∈ join words) as Hjoin
      by (apply elem_of_chars; by eapply list_elem_of_lookup_2).
    destruct (elem_of_transitions_first words x Hjoin) as [b Hb].
    apply elem_of_transitions in Hb as Hb'. destruct Hb' as [_ Hb'].
    apply stoi_total in Hb' as [ib Hib].
    assert (stoi words !! x = Some (i + 1)) as Hix
      by (apply stoi_lookup; right; eauto).
    pose proof (indices_of_transition words x b _ _ Hb Hix Hib) as Hmem.
    rewrite Forall_forall in Hin. apply Hin in Hmem.
    unfold inside, side in Hmem. simpl in Hmem. lia.
  - intros Hrank. apply Forall_forall. intros [ia ib].
    unfold indices. rewrite list_elem_of_fmap. intros ([a b] & Heq & Hab).
    apply elem_of_transitions in Hab as [Ha Hb].
    apply stoi_total in Ha as [ia' Hia], Hb as [ib' Hib].
    unfold index_pair in Heq. simpl in Heq. rewrite Hia, Hib in Heq.
    simpl in Heq. injection Heq as -> ->.
    assert (∀ y n, stoi words !! y = Some n → n < side) as Hlt.
    { intros y n. rewrite stoi_lookup.
      intros [[_ ->]|[Hy (i & -> & Hi)]]; unfold side; [lia|].
      specialize (Hrank i y Hi Hy). lia. }
    split; simpl; eauto.
Qed.

Lemma indices_outside words :
  ¬ Forall (inside side side) (indices words) →
  ∃ i x, chars words !! i = Some x ∧ x ≠ dot ∧ 26 ≤ i.
Proof.
  intros Hout. apply not_Forall_Exists in Hout; [|apply _].
  apply Exists_exists in Hout as ([ia ib] & Hmem & Hnot).
  unfold indices in Hmem. apply list_elem_of_fmap in Hmem as ([a b] & Heq & Hab).
  apply elem_of_transitions in Hab as [Ha Hb].
  apply stoi_total in Ha as [ia' Hia], Hb as [ib' Hib].
  unfold index_pair in Heq. simpl in Heq. rewrite Hia, Hib in Heq.
  simpl in Heq. injection Heq as -> ->.
  assert (∀ y n, stoi words !! y = Some n → side ≤ n →
            ∃ i x, chars words !! i = Some x ∧ x ≠ dot ∧ 26 ≤ i) as Hbig.
  { intros y n. rewrite stoi_lookup. unfold side.
    intros [[_ ->]|[Hy (i & -> & Hi)]] Hn; [lia|].
    exists i, y. repeat split; [done..|lia]. }
  unfold inside in Hnot. simpl in Hnot.
  destruct (decide (ia' < side)) as [Hlt|Hge].
  - apply (Hbig b ib' Hib). lia.
  - apply (Hbig a ia' Hia). lia.
Qed.
End failure.

(** X5: the counting pass raises an index error exactly when some
    character other than "." has rank 26 or more among the sorted distinct
    characters of the corpus; otherwise it finishes. *)
Theorem counter_fails_iff (words : list (list N)) :
  (counter words = Raise IndexError ↔
     ∃ (i : nat) (x : N), chars words !! i = Some x ∧ x ≠ dot ∧ 26 ≤ i) ∧
  ((∃ M, counter words = Ok M) ↔
     ∀ (i : nat) (x : N), chars words !! i = Some x → x ≠ dot → i < 26).
Proof.
  split; split.
  - intros Hraise. apply indices_outside. intros Hin.
    destruct (counter_Ok words Hin) as (M & HM & _). congruence.
  - intros (i & x & Hi & Hx & Hge). apply counter_Raise. intros Hin.
    rewrite indices_inside_iff in Hin. specialize (Hin i x Hi Hx). lia.
  - intros [M HM]. apply indices_inside_iff.
    by apply counter_inv in HM as [? _].
  - intros Hrank. apply indices_inside_iff in Hrank.
    destruct (counter_Ok words Hrank) as (M & HM & _). eauto.
Qed.

(** X6: whatever the corpus, a table left by the counting pass has 27 rows
    of 27 cells, and every cell lies in the signed 32-bit range. *)
Theorem counter_table_invariant (words : list (list N)) (M : list (list Z)) :
  counter words = Ok M →
  shape side side M ∧
  ∀ (i j : nat) (v : Z), cell M i j = Some v → (- 2 ^ 31 ≤ v < 2 ^ 31)%Z.
Proof.
  intros HM. apply counter_inv in HM as (_ & Hshape & Hcells).
  split; [done|]. intros i j v Hv.
  destruct (decide (i < side ∧ j < side)) as [[Hi Hj]|Hout].
  - rewrite Hcells in Hv by done. injection Hv as <-. apply wrap32_range.
  - by rewrite (cell_outside side side) in Hv.
Qed.

Lemma counter_table_invariant_witness :
  shape side side table_ab_ab ∧
  ∀ (i j : nat) (v : Z),
    cell table_ab_ab i j = Some v → (- 2 ^ 31 ≤ v < 2 ^ 31)%Z.
Proof.
  apply (counter_table_invariant corpus_ab_ab table_ab_ab).
  vm_compute. reflexivity.
Defined.

(** ** Sums of rows and columns *)

Section row_and_column_sums.
Implicit Types (words : list (list N)) (M : list (list Z)).
Implicit Types (i j k r c n : nat) (ps : list (nat * nat)).

Lemma zsum_cons (x : Z) (l : list Z) : zsum (x :: l) = (x + zsum l)%Z.
Proof. done. Qed.

Lemma zsum_fmap_add {A} (g h : A → Z) (l : list A) :
  zsum ((λ x, g x + h x)%Z <$> l) = (zsum (g <$> l) + zsum (h <$> l))%Z.
Proof.
  induction l as [|x l IH]; [done|].
  rewrite !fmap_cons, !zsum_cons, IH. lia.
Qed.

Lemma zsum_fmap_zero {A} (g : A → Z) (l : list A) :
  (∀ x, x ∈ l → g x = 0%Z) → zsum (g <$> l) = 0%Z.
Proof.
  induction l as [|x l IH]; intros Hz; [done|].
  rewrite fmap_cons, zsum_cons, Hz by (by left).
  rewrite IH; [done|]. intros y Hy. apply Hz. by right.
Qed.

Lemma zsum_indicator (l : list nat) (b : nat) :
  NoDup l →
  zsum ((λ j, if decide (j = b) then 1 else 0)%Z <$> l)
  = if decide (b ∈ l) then 1%Z else 0%Z.
Proof.
  induction 1 as [|x l Hx Hl IH].
  - case_decide as Hb; [by apply elem_of_nil in Hb|done].
  - rewrite fmap_cons, zsum_cons, IH.
    destruct (decide (x = b)) as [->|Hne]; destruct (decide (b ∈ l)) as [Hb|Hb];
      try done.
    + rewrite (decide_True (P := b ∈ b :: l)) by (by left). lia.
    + rewrite (decide_True (P := b ∈ x :: l)) by (by right). lia.
    + rewrite (decide_False (P := b ∈ x :: l)); [lia|].
      intros [?|?]%elem_of_cons; by subst.
Qed.

Lemma sum_below_indicator n b :
  sum_below n (λ j, if decide (j = b) then 1 else 0)%Z
  = if decide (b < n) then 1%Z else 0%Z.
Proof.
  unfold sum_below. rewrite zsum_indicator by apply NoDup_seq.
  destruct (decide (b < n)) as [Hb|Hb].
  - rewrite decide_True; [done|]. apply elem_of_seq. lia.
  - rewrite decide_False; [done|]. rewrite elem_of_seq. lia.
Qed.

Lemma sum_below_ext n (g h : nat → Z) :
  (∀ k, k < n → g k = h k) → sum_below n g = sum_below n h.
Proof.
  intros Hgh. unfold sum_below. f_equal. apply list_fmap_ext.
  intros i k Hk. apply lookup_seq in Hk as [-> Hlt]. by apply Hgh.
Qed.

Lemma row_sum_tabulate r c f i :
  i < r → row_sum (tabulate r c f) i = sum_below c (f i).
Proof.
  intros Hi. unfold row_sum, tabulate.
  by rewrite list_lookup_fmap, lookup_seq_lt.
Qed.

Lemma col_sum_tabulate r c f j :
  j < c → col_sum (tabulate r c f) j = sum_below r (λ i, f i j).
Proof.
  intros Hj. unfold col_sum, tabulate, sum_below.
  rewrite <- list_fmap_compose. f_equal. apply list_fmap_ext.
  intros k i _. simpl. by rewrite list_lookup_fmap, lookup_seq_lt.
Qed.

Lemma count_if_cons {A} (P : A → Prop) `{∀ x, Decision (P x)} x (l : list A) :
  count_if P (x :: l) = if decide (P x) then S (count_if P l) else count_if P l.
Proof. unfold count_if. rewrite filter_cons. by case_decide. Qed.

Lemma count_if_app {A} (P : A → Prop) `{∀ x, Decision (P x)} (l k : list A) :
  count_if P (l ++ k) = count_if P l + count_if P k.
Proof. unfold count_if. by rewrite filter_app, length_app. Qed.

Lemma count_if_perm {A} (P : A → Prop) `{∀ x, Decision (P x)} (l k : list A) :
  l ≡ₚ k → count_if P l = count_if P k.
Proof. intros Hp. unfold count_if. by rewrite Hp. Qed.

Lemma count_if_fmap {A B} (f : A → B) (P : B → Prop) `{∀ y, Decision (P y)}
    (l : list A) :
  count_if P (f <$> l) = count_if (λ x, P (f x)) l.
Proof.
  induction l as [|x l IH]; [done|].
  rewrite fmap_cons, !count_if_cons, IH. done.
Qed.

Lemma count_if_ext {A} (P Q : A → Prop) `{∀ x, Decision (P x)}
    `{∀ x, Decision (Q x)} (l : list A) :
  (∀ x, x ∈ l → P x ↔ Q x) → count_if P l = count_if Q l.
Proof.
  induction l as [|x l IH]; intros HPQ; [done|].
  rewrite !count_if_cons, IH by (intros y Hy; apply HPQ; by right).
  pose proof (HPQ x ltac:(by left)). repeat case_decide; tauto.
Qed.

(** The occurrences of the pairs of one row, or of one column, add up to
    the pairs that begin, or end, with its index. *)
Lemma sum_occurrences_row r c ps i :
  Forall (inside r c) ps →
  sum_below c (λ j, Z.of_nat (occurrences (i, j) ps))
  = Z.of_nat (count_if (λ k, k = i) ps.*1).
Proof.
  induction 1 as [|[a b] ps [Ha Hb] Hps IH]; cbn [fst snd] in *.
  - unfold sum_below. by rewrite zsum_fmap_zero.
  - rewrite fmap_cons, count_if_cons. cbn [fst snd].
    rewrite (sum_below_ext c _ (λ j,
      (if decide (j = b) then if decide (a = i) then 1 else 0 else 0)
      + Z.of_nat (occurrences (i, j) ps))%Z).
    + unfold sum_below in *. rewrite zsum_fmap_add, IH. cbv beta.
      destruct (decide (a = i)) as [->|Hne].
      * pose proof (sum_below_indicator c b) as Hind. unfold sum_below in Hind.
        rewrite Hind, decide_True by done. lia.
      * rewrite zsum_fmap_zero; [lia|]. intros j _. by case_decide.
    + intros j _. rewrite occurrences_cons.
      repeat case_decide; simplify_eq; lia.
Qed.

Lemma sum_occurrences_col r c ps j :
  Forall (inside r c) ps →
  sum_below r (λ i, Z.of_nat (occurrences (i, j) ps))
  = Z.of_nat (count_if (λ k, k = j) ps.*2).
Proof.
  induction 1 as [|[a b] ps [Ha Hb] Hps IH]; cbn [fst snd] in *.
  - unfold sum_below. by rewrite zsum_fmap_zero.
  - rewrite fmap_cons, count_if_cons. cbn [fst snd].
    rewrite (sum_below_ext r _ (λ i,
      (if decide (i = a) then if decide (b = j) then 1 else 0 else 0)
      + Z.of_nat (occurrences (i, j) ps))%Z).
    + unfold sum_below in *. rewrite zsum_fmap_add, IH. cbv beta.
      destruct (decide (b = j)) as [->|Hne].
      * pose proof (sum_below_indicator r a) as Hind. unfold sum_below in Hind.
        rewrite Hind, decide_True by done. lia.
      * rewrite zsum_fmap_zero; [lia|]. intros i _. by case_decide.
    + intros i _. rewrite occurrences_cons.
      repeat case_decide; simplify_eq; lia.
Qed.
End row_and_column_sums.

(** ** Rows and columns of the table of a corpus *)

Section corpus_sums.
Implicit Types (words : list (list N)) (w : list N) (M : list (list Z)).
Implicit Types (i j k : nat) (x : N).

(** Below the limit the table is the table of the counts. *)
Lemma counter_tabulate words M :
  counter words = Ok M → (Z.of_nat (total words) < 2 ^ 31)%Z →
  M = tabulate side side (λ i j, Z.of_nat (follows words i j)).
Proof.
  intros HM Hlim. pose proof (counter_inv words M HM) as (_ & Hshape & _).
  apply (table_ext side side); [done|apply shape_tabulate|].
  intros i j Hi Hj. rewrite cell_tabulate by done. by apply cell_exact.
Qed.

Lemma bigrams_cons_cons {A} (a b : A) (l : list A) :
  bigrams (a :: b :: l) = (a, b) :: bigrams (b :: l).
Proof. done. Qed.

Lemma bigrams_closed_fst (l : list N) (d : N) : (bigrams (l ++ [d])).*1 = l.
Proof.
  induction l as [|y l IH]; [done|].
  assert (∃ z r, l ++ [d] = z :: r) as (z & r & Hzr)
    by (destruct l; simpl; eauto).
  cbn [app]. rewrite Hzr, bigrams_cons_cons, fmap_cons, <- Hzr, IH. done.
Qed.

Lemma bigrams_snd (l : list N) : (bigrams l).*2 = tail l.
Proof.
  unfold bigrams. apply snd_zip. destruct l; simpl; lia.
Qed.

Lemma wrapped_fst w : (bigrams (wrapped w)).*1 = dot :: w.
Proof. unfold wrapped. apply (bigrams_closed_fst (dot :: w) dot). Qed.

Lemma wrapped_snd w : (bigrams (wrapped w)).*2 = w ++ [dot].
Proof. by rewrite bigrams_snd. Qed.

Lemma transitions_cons w words :
  transitions (w :: words) = bigrams (wrapped w) ++ transitions words.
Proof. done. Qed.

(** Every character is entered as often as it is left. *)
Lemma transitions_fst_snd words :
  (transitions words).*1 ≡ₚ (transitions words).*2.
Proof.
  induction words as [|w words IH]; [done|].
  rewrite transitions_cons, !fmap_app, wrapped_fst, wrapped_snd, IH.
  by rewrite Permutation_cons_append.
Qed.

Lemma indices_fst words :
  (indices words).*1 = (λ a, default 0 (stoi words !! a)) <$> (transitions words).*1.
Proof. unfold indices. by rewrite <- !list_fmap_compose. Qed.

Lemma indices_snd words :
  (indices words).*2 = (λ a, default 0 (stoi words !! a)) <$> (transitions words).*2.
Proof. unfold indices. by rewrite <- !list_fmap_compose. Qed.

Lemma row_sum_counter words M i :
  counter words = Ok M → (Z.of_nat (total words) < 2 ^ 31)%Z → i < side →
  row_sum M i = Z.of_nat (count_if (λ k, k = i) (indices words).*1).
Proof.
  intros HM Hlim Hi. pose proof (counter_inv words M HM) as (Hin & _ & _).
  rewrite (counter_tabulate words M HM Hlim), row_sum_tabulate by done.
  rewrite <- (sum_occurrences_row side side) by done.
  apply sum_below_ext. intros j _. by rewrite follows_occurrences.
Qed.

Lemma col_sum_counter words M j :
  counter words = Ok M → (Z.of_nat (total words) < 2 ^ 31)%Z → j < side →
  col_sum M j = Z.of_nat (count_if (λ k, k = j) (indices words).*2).
Proof.
  intros HM Hlim Hj. pose proof (counter_inv words M HM) as (Hin & _ & _).
  rewrite (counter_tabulate words M HM Hlim), col_sum_tabulate by done.
  rewrite <- (sum_occurrences_col side side) by done.
  apply sum_below_ext. intros i _. by rewrite follows_occurrences.
Qed.

Lemma transitions_fst_join words :
  (transitions words).*1 ≡ₚ replicate (length words) dot ++ join words.
Proof.
  induction words as [|w words IH]; [done|].
  rewrite transitions_cons, fmap_app, wrapped_fst, IH.
  unfold join. cbn [length replicate mjoin list_join app].
  rewrite (assoc_L (++)), (comm (++) w), <- (assoc_L (++)). done.
Qed.

Lemma count_if_replicate_same (x : N) n :
  count_if (λ y, y = x) (replicate n x) = n.
Proof.
  induction n as [|n IH]; [done|]. cbn [replicate].
  rewrite count_if_cons, IH. by rewrite decide_True.
Qed.

(** Index 0 belongs to the boundary symbol alone. *)
Lemma count_index_zero words (l : list N) :
  (∀ x, x ∈ l → is_Some (stoi words !! x)) →
  count_if (λ k, k = 0) ((λ a, default 0 (stoi words !! a)) <$> l)
  = count_if (λ x, x = dot) l.
Proof.
  intros Hl. rewrite count_if_fmap. apply count_if_ext.
  intros x Hx. destruct (Hl x Hx) as [k Hk]. rewrite Hk. simpl. split.
  - intros ->. eapply stoi_inj; [done|apply stoi_dot].
  - intros ->. rewrite stoi_dot in Hk. by injection Hk.
Qed.
End corpus_sums.

(** X7: below the 32-bit limit every index is entered as often as it is
    left: row [i] and column [i] of the table have the same sum. *)
Theorem row_sum_eq_col_sum (words : list (list N)) (M : list (list Z))
    (i : nat) :
  counter words = Ok M → (Z.of_nat (total words) < 2 ^ 31)%Z → i < side →
  row_sum M i = col_sum M i.
Proof.
  intros HM Hlim Hi.
  rewrite (row_sum_counter words M i), (col_sum_counter words M i) by done.
  f_equal. apply count_if_perm.
  by rewrite indices_fst, indices_snd, transitions_fst_snd.
Qed.

Lemma row_sum_eq_col_sum_witness :
  row_sum table_ab_empty 0 = col_sum table_ab_empty 0.
Proof.
  apply (row_sum_eq_col_sum corpus_ab_empty table_ab_empty 0).
  - vm_compute. reflexivity.
  - vm_compute. reflexivity.
  - unfold side. lia.
Defined.

(** X8: below the 32-bit limit row 0 of the table, the row the extraction
    divides by its sum, sums to the number of words plus the number of "."
    characters in the corpus; without such characters, to the number of
    words. *)
Theorem row0_sum_counts_words (words : list (list N)) (M : list (list Z)) :
  counter words = Ok M → (Z.of_nat (total words) < 2 ^ 31)%Z →
  row_sum M 0 =
    Z.of_nat (length words + count_if (λ x, x = dot) (join words)) ∧
  (dot ∉ join words → row_sum M 0 = Z.of_nat (length words)).
Proof.
  intros HM Hlim.
  assert (row_sum M 0 =
          Z.of_nat (length words + count_if (λ x, x = dot) (join words)))
    as Hsum.
  { rewrite (row_sum_counter words M 0) by (done || (unfold side; lia)).
    f_equal. rewrite indices_fst, count_index_zero.
    - rewrite (count_if_perm _ _ _ (transitions_fst_join words)).
      by rewrite count_if_app, count_if_replicate_same.
    - intros x Hx. apply list_elem_of_fmap in Hx as ([a b] & -> & Hab).
      apply elem_of_transitions in Hab as [Ha _]. by apply stoi_total. }
  split; [done|]. intros Hdot. rewrite Hsum. f_equal.
  assert (count_if (λ x, x = dot) (join words) = 0) as ->; [|lia].
  unfold count_if. apply length_zero_iff_nil.
  destruct (filter _ _) as [|y l] eqn:Hf; [done|].
  assert (y ∈ filter (λ x, x = dot) (join words)) as Hy
    by (rewrite Hf; by left).
  apply list_elem_of_filter in Hy as [-> Hy]. done.
Qed.

Lemma row0_sum_counts_words_witness :
  row_sum table_ab_ab 0 =
    Z.of_nat (length corpus_ab_ab
              + count_if (λ x, x = dot) (join corpus_ab_ab)) ∧
  (dot ∉ join corpus_ab_ab → row_sum table_ab_ab 0
                              = Z.of_nat (length corpus_ab_ab)).
Proof.
  apply (row0_sum_counts_words corpus_ab_ab table_ab_ab).
  - vm_compute. reflexivity.
  - vm_compute. reflexivity.
Defined.

(** ** First characters *)

Section first_characters.
Implicit Types (words : list (list N)) (w : list N) (M : list (list Z)).
Implicit Types (i j k : nat) (x : N).

Lemma count_if_none {A} (P : A → Prop) `{∀ y, Decision (P y)} (l : list A) :
  (∀ y, y ∈ l → ¬ P y) → count_if P l = 0.
Proof.
  induction l as [|y l IH]; intros Hl; [done|].
  rewrite count_if_cons, decide_False by (apply Hl; by left).
  apply IH. intros z Hz. apply Hl. by right.
Qed.

(** In a word without ".", the boundary symbol is followed once, by the
    first character. *)
Lemma count_first_transition w x :
  dot ∉ w →
  count_if (λ ab, ab = (dot, x)) (bigrams (wrapped w))
  = if decide (first_char w = x) then 1 else 0.
Proof.
  intros Hdot. unfold wrapped, first_char. destruct w as [|y w].
  - change (bigrams ([dot] ++ [] ++ [dot])) with [(dot, dot)].
    cbn [head default]. rewrite count_if_cons.
    repeat case_decide; simplify_eq; done.
  - change (bigrams ([dot] ++ (y :: w) ++ [dot]))
      with ((dot, y) :: bigrams ((y :: w) ++ [dot])).
    cbn [head default].
    rewrite count_if_cons, (count_if_none _ (bigrams _)).
    + repeat case_decide; simplify_eq; done.
    + intros [a b] Hab [= -> ->]. apply Hdot.
      rewrite <- (bigrams_closed_fst (y :: w) dot).
      apply list_elem_of_fmap. by exists (dot, x).
Qed.

Lemma count_first_transitions words x :
  dot ∉ join words →
  count_if (λ ab, ab = (dot, x)) (transitions words)
  = count_if (λ w, first_char w = x) words.
Proof.
  induction words as [|w words IH]; intros Hdot; [done|].
  assert ((dot ∉ w) ∧ (dot ∉ join words)) as [Hw Hws].
  { unfold join in *. cbn [mjoin list_join] in Hdot.
    rewrite elem_of_app in Hdot. tauto. }
  rewrite transitions_cons, count_if_app, count_first_transition, IH by done.
  rewrite count_if_cons. by case_decide.
Qed.

Lemma stoi_in_table words M x j :
  counter words = Ok M → stoi words !! x = Some j → j < side.
Proof.
  intros HM. apply counter_inv in HM as (Hin & _ & _).
  rewrite indices_inside_iff in Hin. rewrite stoi_lookup. unfold side.
  intros [[_ ->]|[Hx (i & -> & Hi)]]; [lia|].
  specialize (Hin i x Hi Hx). lia.
Qed.

Lemma follows_boundary words x j :
  stoi words !! x = Some j →
  follows words 0 j = count_if (λ ab, ab = (dot, x)) (transitions words).
Proof.
  intros Hx. unfold follows. apply (count_if_ext _ _ (transitions words)).
  intros [a b] _. simpl. split.
  - intros [Ha Hb]. f_equal.
    + eapply stoi_inj; [done|apply stoi_dot].
    + by eapply stoi_inj.
  - intros [= -> ->]. split; [apply stoi_dot|done].
Qed.
End first_characters.

(** X9: when no word contains the character "." and the corpus is below
    the 32-bit limit, cell [0, stoi[x]] of the table is the number of words
    whose first character is [x]; for the boundary symbol itself, the number
    of empty words. *)
Theorem first_character_counts (words : list (list N)) (M : list (list Z))
    (x : N) (j : nat) :
  dot ∉ join words →
  counter words = Ok M → (Z.of_nat (total words) < 2 ^ 31)%Z →
  stoi words !! x = Some j →
  cell M 0 j = Some (Z.of_nat (count_if (λ w, first_char w = x) words)).
Proof.
  intros Hdot HM Hlim Hx.
  rewrite (cell_exact words M 0 j HM Hlim); [|unfold side; lia|].
  - by rewrite (follows_boundary words x j Hx), count_first_transitions.
  - by eapply stoi_in_table.
Qed.

Lemma first_character_counts_witness :
  cell table_ab_ab 0 1
  = Some (Z.of_nat (count_if (λ w, first_char w = chr "a") corpus_ab_ab)).
Proof.
  apply (first_character_counts corpus_ab_ab table_ab_ab (chr "a") 1).
  - apply (bool_decide_unpack _). vm_compute. reflexivity.
  - vm_compute. reflexivity.
  - vm_compute. reflexivity.
  - vm_compute. reflexivity.
Defined.

(** ** The plot *)

Section plot.
Implicit Types (it : gmap nat N) (M : list (list Z)) (t : list draw).
Implicit Types (i j k : nat) (js : list nat) (f : nat → N).

Lemma annotate_Ok it M f i j t :
  shape side side M → i < side → j < side →
  it !! i = Some (f i) → it !! j = Some (f j) →
  annotate it M i t j = Ok (t ++ cell_texts f M i j).
Proof.
  intros HM Hi Hj Hfi Hfj. unfold annotate, getitem, item, cell_texts.
  rewrite Hfi. simpl. rewrite Hfj. simpl.
  destruct (cell_is_Some side side M i j HM Hi Hj) as [v ->]. done.
Qed.

Lemma annotate_KeyError it M i j t :
  it !! i = None ∨ it !! j = None → annotate it M i t j = Raise KeyError.
Proof.
  intros Hnone. unfold annotate, getitem.
  destruct (it !! i) as [a|]; [|done]. simpl.
  destruct Hnone as [? | ->]; done.
Qed.

(** A row of the plot. *)
Lemma inner_plot_Ok it M f i js : ∀ t,
  shape side side M → i < side → Forall (λ j, j < side) js →
  (∀ k, k < side → it !! k = Some (f k)) →
  for_each (annotate it M i) t js = Ok (t ++ (j ← js; cell_texts f M i j)).
Proof.
  induction js as [|j js IH]; intros t HM Hi Hjs Hf.
  - simpl. by rewrite (right_id_L [] (++)).
  - apply Forall_cons in Hjs as [Hj Hjs]. cbn [for_each].
    rewrite (annotate_Ok it M f) by eauto. unfold mbind at 1, result_bind.
    rewrite IH by done. by rewrite bind_cons, (assoc_L (++)).
Qed.

Lemma outer_plot_Ok it M f (rows : list nat) : ∀ t,
  shape side side M → Forall (λ i, i < side) rows →
  (∀ k, k < side → it !! k = Some (f k)) →
  for_each (λ t i, for_each (annotate it M i) t (seq 0 side)) t rows
  = Ok (t ++ (i ← rows; j ← seq 0 side; cell_texts f M i j)).
Proof.
  induction rows as [|i rows IH]; intros t HM Hrows Hf.
  - simpl. by rewrite (right_id_L [] (++)).
  - apply Forall_cons in Hrows as [Hi Hrows]. cbn [for_each].
    rewrite (inner_plot_Ok it M f); [|done..| |done].
    + unfold mbind at 1, result_bind. rewrite IH by done.
      by rewrite bind_cons, (assoc_L (++)).
    + apply Forall_forall. intros j Hj. apply elem_of_seq in Hj. lia.
Qed.

Lemma Forall_seq_below n : Forall (λ i, i < n) (seq 0 n).
Proof. apply Forall_forall. intros j Hj. apply elem_of_seq in Hj. lia. Qed.

Lemma render_Ok it M f :
  shape side side M → (∀ k, k < side → it !! k = Some (f k)) →
  render it M = Ok (plot_of f M).
Proof.
  intros HM Hf. unfold render, plot_of.
  rewrite (outer_plot_Ok it M f); [|done|apply Forall_seq_below|done].
  unfold mbind at 1, result_bind. by rewrite <- (assoc_L (++)).
Qed.

(** A row that needs a missing index stops on a [KeyError]. *)
Lemma inner_plot_KeyError it M i js : ∀ t,
  shape side side M → i < side → Forall (λ j, j < side) js →
  (∃ j, j ∈ js ∧ it !! j = None) →
  for_each (annotate it M i) t js = Raise KeyError.
Proof.
  induction js as [|j js IH]; intros t HM Hi Hjs (k & Hk & Hnone).
  - by apply elem_of_nil in Hk.
  - apply Forall_cons in Hjs as [Hj Hjs]. cbn [for_each].
    destruct (it !! i) as [a|] eqn:Ha;
      [|by rewrite annotate_KeyError by (by left)].
    destruct (it !! j) as [b|] eqn:Hb;
      [|by rewrite annotate_KeyError by (by right)].
    rewrite (annotate_Ok it M (λ n, default dot (it !! n)))
      by (rewrite ?Ha, ?Hb; done).
    simpl. apply IH; [done..|]. exists k. split; [|done].
    apply elem_of_cons in Hk as [->|Hk]; [congruence|done].
Qed.

Lemma render_KeyError it M k :
  shape side side M → k < side → it !! k = None →
  render it M = Raise KeyError.
Proof.
  intros HM Hk Hnone. unfold render.
  change (seq 0 side) with (0 :: seq 1 26) at 2. cbn [for_each].
  rewrite inner_plot_KeyError; [done|done|unfold side; lia| |].
  - apply Forall_seq_below.
  - exists k. split; [|done]. apply elem_of_seq. lia.
Qed.

(** The indices below 27 all stand for a character exactly when the sorted
    characters have 26 entries other than "." in front. *)
Lemma itos_full_iff (words : list (list N)) :
  (∀ k, k < side → is_Some (itos words !! k)) ↔
  (∀ i, i < 26 → ∃ x : N, chars words !! i = Some x ∧ x ≠ dot).
Proof.
  split.
  - intros Hfull i Hi. destruct (Hfull (i + 1)) as [x Hx]; [unfold side; lia|].
    apply itos_domain in Hx as [[? _]|[Hx (i' & Heq & Hi')]]; [lia|].
    assert (i' = i) as -> by lia. eauto.
  - intros Hrank [|k] Hk.
    + exists dot. apply itos_lookup, stoi_dot.
    + destruct (Hrank k) as (x & Hx & Hne); [unfold side in Hk; lia|].
      exists x. apply itos_domain. right. split; [done|].
      exists k. split; [lia|done].
Qed.
End plot.

Lemma below_side_Forall (P : nat → Prop) :
  Forall P (seq 0 side) → ∀ k, k < side → P k.
Proof.
  intros HP k Hk. rewrite Forall_forall in HP. apply HP, elem_of_seq. lia.
Qed.

(** X10: on a 27 x 27 table the plot stops on a key error exactly when some
    index below 27 stands for no character in [itos]. *)
Theorem render_fails_iff (it : gmap nat N) (M : list (list Z)) :
  shape side side M →
  render it M = Raise KeyError ↔ ∃ k : nat, k < side ∧ it !! k = None.
Proof.
  intros HM. split.
  - intros Hraise.
    destruct (decide (Forall (λ k, is_Some (it !! k)) (seq 0 side)))
      as [Hfull|Hmiss].
    + rewrite (render_Ok it M (λ k, default dot (it !! k))) in Hraise;
        [done|done|].
      intros k Hk. apply (below_side_Forall _ Hfull) in Hk as [x ->]. done.
    + apply not_Forall_Exists in Hmiss; [|apply _].
      apply Exists_exists in Hmiss as (k & Hk & Hnone).
      exists k. apply elem_of_seq in Hk. split; [lia|].
      simpl in Hnone. by apply eq_None_not_Some.
  - intros (k & Hk & Hnone). by apply (render_KeyError it M k).
Qed.

Lemma render_fails_iff_witness :
  render (itos corpus_names) N_init = Raise KeyError ↔
  ∃ k : nat, k < side ∧ itos corpus_names !! k = None.
Proof.
  apply (render_fails_iff (itos corpus_names) N_init). apply shape_zeros.
Defined.

(** X11: when every index below 27 stands for a character, the plot of a
    27 x 27 table raises nothing and consists of the figure, the image of
    the table, then for each cell, row by row, the label made of the
    characters of its two indices and its count, and at last the axes
    command: 1461 calls in all. *)
Theorem render_full_alphabet (it : gmap nat N) (M : list (list Z))
    (f : nat → N) :
  shape side side M → (∀ k : nat, k < side → it !! k = Some (f k)) →
  render it M = Ok (plot_of f M) ∧ length (plot_of f M) = 1461.
Proof.
  intros HM Hf. split; [by apply render_Ok|]. by vm_compute.
Qed.

Lemma render_full_alphabet_witness :
  render (itos corpus_alphabet) N_init
    = Ok (plot_of (λ k, default dot (itos corpus_alphabet !! k)) N_init) ∧
  length (plot_of (λ k, default dot (itos corpus_alphabet !! k)) N_init)
    = 1461.
Proof.
  apply (render_full_alphabet (itos corpus_alphabet) N_init
           (λ k, default dot (itos corpus_alphabet !! k))).
  - apply shape_zeros.
  - apply below_side_Forall. apply (bool_decide_unpack _).
    vm_compute. reflexivity.
Defined.

(** X12: run from top to bottom, the script gets through the pass, the
    plot and the extraction exactly when the sorted distinct characters
    of the corpus begin with 26 characters other than "." and hold no other
    character but, possibly, "." after them. *)
Theorem script_runs_iff (words : list (list N)) :
  (∃ r, script words = Ok r) ↔
  (∀ i : nat, i < 26 → ∃ x : N, chars words !! i = Some x ∧ x ≠ dot) ∧
  (∀ (i : nat) (x : N), chars words !! i = Some x → x ≠ dot → i < 26).
Proof.
  unfold script. split.
  - intros [r Hr]. destruct (counter words) as [M|e] eqn:HM; [|done].
    simpl in Hr. pose proof (counter_inv words M HM) as (Hin & Hshape & _).
    split; [|by apply indices_inside_iff].
    apply itos_full_iff. intros k Hk.
    destruct (itos words !! k) as [x|] eqn:Hx; [by eexists|].
    by rewrite (render_KeyError (itos words) M k) in Hr.
  - intros [Hfull Hrank]. apply indices_inside_iff in Hrank.
    destruct (counter_Ok words Hrank) as (M & -> & Hshape & _). simpl.
    pose proof (proj2 (itos_full_iff words) Hfull) as Hit.
    rewrite (render_Ok (itos words) M (λ k, default dot (itos words !! k)))
      by (done || (intros k Hk; by destruct (Hit k Hk) as [x ->])).
    simpl. destruct (p_never_raises M Hshape) as (ps & -> & _). simpl. eauto.
Qed.

(** X13: on a corpus with fewer than 26 distinct characters the script,
    run from top to bottom, stops in the plot on a key error; the
    extraction is not reached. *)
Theorem script_small_vocabulary (words : list (list N)) :
  length (chars words) < 26 → script words = Raise KeyError.
Proof.
  intros Hlen. unfold script.
  destruct (counter_Ok words) as (M & -> & Hshape & _).
  { apply indices_inside. unfold side. lia. }
  simpl. rewrite (render_KeyError (itos words) M 26); [done|done| |].
  - unfold side. lia.
  - destruct (itos words !! 26) as [x|] eqn:Hx; [|done].
    apply itos_lookup, stoi_bound in Hx. lia.
Qed.

Lemma script_small_vocabulary_witness :
  script corpus_names = Raise KeyError.
Proof.
  apply (script_small_vocabulary corpus_names). vm_compute. lia.
Defined.

(** ** The loader *)

Section loader.
Implicit Types (s cur w rest : list N) (c x : N) (words : list (list N)).

Lemma splitlines_from_no_linebreak s :
  (∀ cur, Forall (λ c, is_linebreak c = false) cur →
     Forall (Forall (λ c, is_linebreak c = false)) (splitlines_from cur s)) ∧
  (∀ c' s'', s = c' :: s'' →
     ∀ cur, Forall (λ c, is_linebreak c = false) cur →
       Forall (Forall (λ c, is_linebreak c = false)) (splitlines_from cur s'')).
Proof.
  induction s as [|c s [IH1 IH2]].
  - split; [|done]. intros cur Hcur. simpl. destruct cur; [done|].
    constructor; [|done]. by apply Forall_reverse.
  - split; [|by intros c' s'' [= -> ->]].
    intros cur Hcur. cbn [splitlines_from].
    destruct (is_linebreak c) eqn:Hc.
    + constructor; [by apply Forall_reverse|].
      destruct s as [|c' s'']; [by apply IH1|].
      case_bool_decide; [by apply (IH2 c' s'')|by apply IH1].
    + apply IH1. by constructor.
Qed.

Lemma splitlines_from_line w : ∀ cur rest,
  Forall (λ c, is_linebreak c = false) w →
  splitlines_from cur (w ++ 10%N :: rest)
  = (reverse cur ++ w) :: splitlines_from [] rest.
Proof.
  induction w as [|y w IH]; intros cur rest Hw.
  - cbn [app splitlines_from]. rewrite (right_id_L [] (++)).
    change (is_linebreak 10) with true. cbn match.
    destruct rest as [|c' s'']; [done|]. by rewrite bool_decide_false by lia.
  - apply Forall_cons in Hw as [Hy Hw]. cbn [app splitlines_from].
    rewrite Hy, IH by done. by rewrite reverse_cons, <- (assoc_L (++)).
Qed.

Lemma splitlines_from_last w : ∀ cur,
  Forall (λ c, is_linebreak c = false) w → cur ≠ [] ∨ w ≠ [] →
  splitlines_from cur w = [reverse cur ++ w].
Proof.
  induction w as [|y w IH]; intros cur Hw Hne.
  - destruct Hne as [Hne|?]; [|done]. simpl.
    rewrite (right_id_L [] (++)). by destruct cur.
  - apply Forall_cons in Hw as [Hy Hw]. cbn [splitlines_from].
    rewrite Hy, IH by (done || by left).
    by rewrite reverse_cons, <- (assoc_L (++)).
Qed.

Lemma splitlines_lines_text words rest :
  Forall (Forall (λ c, is_linebreak c = false)) words →
  splitlines (lines_text words ++ rest) = words ++ splitlines rest.
Proof.
  unfold splitlines, lines_text. induction 1 as [|w words Hw Hwords IH].
  - done.
  - rewrite bind_cons, <- !(assoc_L (++)). cbn [app].
    rewrite splitlines_from_line by done. cbn [reverse rev_append app].
    by rewrite IH.
Qed.
End loader.

(** X14: the loader never leaves a line-break character in a word, so that
    no such character ever gets an index in the vocabulary. *)
Theorem load_no_linebreak (text : list N) :
  Forall (Forall (λ c, is_linebreak c = false)) (load text) ∧
  ∀ (x : N) (k : nat), stoi (load text) !! x = Some k → is_linebreak x = false.
Proof.
  assert (Forall (Forall (λ c, is_linebreak c = false)) (load text)) as Hload
    by (apply splitlines_from_no_linebreak; constructor).
  split; [done|]. intros x k. rewrite stoi_lookup.
  intros [[-> _]|[_ (i & _ & Hi)]]; [done|].
  apply list_elem_of_lookup_2, elem_of_chars in Hi.
  unfold join in Hi. apply list_elem_of_join in Hi as (w & Hx & Hw).
  rewrite Forall_forall in Hload. specialize (Hload w Hw).
  rewrite Forall_forall in Hload. by apply Hload.
Qed.

(** X15: a file that holds words without line-break characters one per
    line, each line ended by a line feed, loads as exactly these words,
    empty lines included; so does the same file with a last, non-empty
    word left without its line feed. *)
Theorem load_lines_text (words : list (list N)) (w : list N) :
  Forall (Forall (λ c, is_linebreak c = false)) words →
  Forall (λ c, is_linebreak c = false) w → w ≠ [] →
  load (lines_text words) = words ∧
  load (lines_text words ++ w) = words ++ [w].
Proof.
  intros Hwords Hw Hne. unfold load. split.
  - rewrite <- (right_id_L [] (++) (lines_text words)).
    rewrite splitlines_lines_text by done. apply (right_id_L [] (++)).
  - rewrite splitlines_lines_text by done. f_equal.
    unfold splitlines. rewrite splitlines_from_last by (done || by right).
    done.
Qed.

Lemma load_lines_text_witness :
  load (lines_text [str "emma"; str ""; str "olivia"])
    = [str "emma"; str ""; str "olivia"] ∧
  load (lines_text [str "emma"; str ""; str "olivia"] ++ str "ava")
    = [str "emma"; str ""; str "olivia"] ++ [str "ava"].
Proof.
  apply (load_lines_text [str "emma"; str ""; str "olivia"] (str "ava")).
  - apply (bool_decide_unpack _). vm_compute. reflexivity.
  - apply (bool_decide_unpack _). vm_compute. reflexivity.
  - vm_compute. discriminate.
Defined.

(** X16: whenever the counting pass has finished, the extraction raises
    nothing and returns a vector of 27 floats, one per index. *)
Theorem p_after_counter (words : list (list N)) (M : list (list Z)) :
  counter words = Ok M → ∃ ps, p M = Ok ps ∧ length ps = 27.
Proof.
  intros HM. apply counter_inv in HM as (_ & Hshape & _).
  by apply p_never_raises.
Qed.

Lemma p_after_counter_witness :
  ∃ ps, p table_ab_ab = Ok ps ∧ length ps = 27.
Proof.
  apply (p_after_counter corpus_ab_ab table_ab_ab). vm_compute. reflexivity.
Defined.

(** ** Single-precision arithmetic on counts

    What the conversion, the sum and the division of the extraction do on
    counts that have not wrapped around: no NaN, no infinity, no negative
    value, and a positive quotient for a positive count. *)

Section float32.
Implicit Types (m : positive) (e lo hi : Z) (x y : spec_float).
Local Open Scope Z_scope.

Lemma digits2_pos_bounds m :
  2 ^ (Zpos (digits2_pos m) - 1) ≤ Zpos m < 2 ^ Zpos (digits2_pos m).
Proof.
  induction m as [m IH|m IH|]; cbn [digits2_pos].
  - rewrite Pos2Z.inj_succ, Z.pow_succ_r by lia.
    replace (Z.succ (Zpos (digits2_pos m)) - 1) with (Z.succ (Zpos (digits2_pos m) - 1)) by lia.
    rewrite Z.pow_succ_r by lia. lia.
  - rewrite Pos2Z.inj_succ, Z.pow_succ_r by lia.
    replace (Z.succ (Zpos (digits2_pos m)) - 1) with (Z.succ (Zpos (digits2_pos m) - 1)) by lia.
    rewrite Z.pow_succ_r by lia. lia.
  - simpl. lia.
Qed.

Lemma digits2_pos_unique m (k : Z) :
  2 ^ (k - 1) ≤ Zpos m < 2 ^ k → Zpos (digits2_pos m) = k.
Proof.
  intros [Hlo Hhi]. pose proof (digits2_pos_bounds m) as [Hl Hh].
  assert (0 < k).
  { destruct (decide (0 < k)) as [|Hk]; [done|]. exfalso.
    destruct (decide (k = 0)) as [->|Hne]; [simpl in Hhi; lia|].
    rewrite (Z.pow_neg_r 2 k) in Hhi by lia. lia. }
  destruct (Z.lt_trichotomy (Zpos (digits2_pos m)) k) as [Hlt|[?|Hgt]]; [|done|].
  - assert (2 ^ Zpos (digits2_pos m) ≤ 2 ^ (k - 1))
      by (apply Z.pow_le_mono_r; lia). lia.
  - assert (2 ^ k ≤ 2 ^ (Zpos (digits2_pos m) - 1))
      by (apply Z.pow_le_mono_r; lia). lia.
Qed.

Lemma shr_1_m (r : shr_record) :
  0 ≤ shr_m r → shr_m (shr_1 r) = shr_m r / 2 ∧ 0 ≤ shr_m (shr_1 r).
Proof.
  destruct r as [mm rr ss]. cbn [shr_m]. intros Hm.
  destruct mm as [|[p|p|]|p]; cbn [shr_1 shr_m]; [done| | |done|lia].
  - split; [|lia]. apply (Z.div_unique _ _ _ 1); lia.
  - split; [|lia]. apply (Z.div_unique _ _ _ 0); lia.
Qed.

Lemma iter_shr_1_m (p : positive) : ∀ r : shr_record,
  0 ≤ shr_m r →
  shr_m (SpecFloat.iter_pos shr_1 p r) = shr_m r / 2 ^ Zpos p ∧
  0 ≤ shr_m (SpecFloat.iter_pos shr_1 p r).
Proof.
  induction p as [p IH|p IH|]; intros r Hr; cbn [SpecFloat.iter_pos].
  - destruct (shr_1_m r Hr) as [H1 H1'].
    destruct (IH _ H1') as [H2 H2']. destruct (IH _ H2') as [H3 H3'].
    split; [|done]. rewrite H3, H2, H1.
    rewrite !Z.div_div by lia. f_equal.
    rewrite Pos2Z.inj_xI, Z.pow_add_r, Z.pow_mul_r by lia.
    change (2 ^ 2) with 4. rewrite <- Z.pow_add_r by lia.
    replace (Zpos p + Zpos p) with (2 * Zpos p) by lia.
    rewrite Z.pow_mul_r by lia. change (2 ^ 2) with 4. change (2 ^ 1) with 2. lia.
  - destruct (IH _ Hr) as [H2 H2']. destruct (IH _ H2') as [H3 H3'].
    split; [|done]. rewrite H3, H2. rewrite !Z.div_div by lia. f_equal.
    rewrite Pos2Z.inj_xO. rewrite <- Z.pow_add_r by lia. f_equal. lia.
  - destruct (shr_1_m r Hr) as [H1 H1']. split; [|done]. by rewrite H1.
Qed.
Lemma shr_record_of_loc_m (mz : Z) (l : location) :
  shr_m (shr_record_of_loc mz l) = mz.
Proof. by destruct l as [|[]]. Qed.

Lemma shr_m_spec (r : shr_record) e (n : Z) :
  0 ≤ shr_m r → 0 ≤ n →
  shr_m (shr r e n).1 = shr_m r / 2 ^ n ∧ (shr r e n).2 = e + n.
Proof.
  intros Hr Hn. destruct n as [|p|p]; [| |lia]; cbn [shr fst snd].
  - rewrite Z.div_1_r. lia.
  - split; [|done]. by apply iter_shr_1_m.
Qed.

Lemma fexp_normal (k : Z) : -149 ≤ k - 24 → fexp 24 128 k = k - 24.
Proof. unfold fexp, emin. lia. Qed.

Lemma shr_fexp_normal m e (l : location) :
  24 ≤ Zpos (digits2_pos m) → -149 ≤ Zpos (digits2_pos m) + e - 24 →
  shr_m (shr_fexp 24 128 (Zpos m) e l).1
    = Zpos m / 2 ^ (Zpos (digits2_pos m) - 24) ∧
  (shr_fexp 24 128 (Zpos m) e l).2 = e + (Zpos (digits2_pos m) - 24).
Proof.
  intros Hd Hrange. unfold shr_fexp. cbn [Zdigits2].
  rewrite fexp_normal by done.
  replace (Zpos (digits2_pos m) + e - 24 - e)
    with (Zpos (digits2_pos m) - 24) by lia.
  pose proof (shr_m_spec (shr_record_of_loc (Zpos m) l) e
                (Zpos (digits2_pos m) - 24)) as Hshr.
  rewrite shr_record_of_loc_m in Hshr. apply Hshr; lia.
Qed.

(** The leading 24 bits of a mantissa. *)
Lemma leading_bits m :
  24 ≤ Zpos (digits2_pos m) →
  2 ^ 23 ≤ Zpos m / 2 ^ (Zpos (digits2_pos m) - 24) < 2 ^ 24.
Proof.
  intros Hd. pose proof (digits2_pos_bounds m) as [Hlo Hhi].
  set (d := Zpos (digits2_pos m)) in *.
  assert (0 < 2 ^ (d - 24)) by (apply Z.pow_pos_nonneg; lia).
  assert (2 ^ (d - 1) = 2 ^ (d - 24) * 2 ^ 23) as Hl
    by (rewrite <- Z.pow_add_r by lia; f_equal; lia).
  assert (2 ^ d = 2 ^ (d - 24) * 2 ^ 24) as Hh
    by (rewrite <- Z.pow_add_r by lia; f_equal; lia).
  split.
  - apply Z.div_le_lower_bound; lia.
  - apply Z.div_lt_upper_bound; lia.
Qed.

Lemma round_nearest_even_bounds (mz : Z) (l : location) :
  mz ≤ round_nearest_even mz l ≤ mz + 1.
Proof. destruct l as [|[]]; simpl; try lia. destruct (Z.even mz); lia. Qed.

Lemma normal32_weaken lo hi lo' hi' x :
  lo' ≤ lo → hi ≤ hi' → normal32 lo hi x → normal32 lo' hi' x.
Proof. intros ?? (m & e & -> & ? & ?). exists m, e. repeat split; lia. Qed.

(** Rounding a mantissa of at least 24 bits in the normal range. *)
Lemma binary_round_aux_normal (sx : bool) m e (l : location) :
  24 ≤ Zpos (digits2_pos m) →
  -149 ≤ Zpos (digits2_pos m) + e - 24 →
  Zpos (digits2_pos m) + e - 23 ≤ 104 →
  ∃ m' e', binary_round_aux 24 128 sx (Zpos m) e l = S754_finite sx m' e' ∧
    Zpos (digits2_pos m') = 24 ∧
    Zpos (digits2_pos m) + e - 24 ≤ e' ≤ Zpos (digits2_pos m) + e - 23.
Proof.
  intros Hd Hlo Hhi. unfold binary_round_aux.
  pose proof (shr_fexp_normal m e l Hd Hlo) as [Hm1 He1].
  destruct (shr_fexp 24 128 (Zpos m) e l) as [r1 e1]. cbn [fst snd] in *.
  pose proof (leading_bits m Hd) as Hlead. rewrite <- Hm1 in Hlead.
  pose proof (round_nearest_even_bounds (shr_m r1) (loc_of_shr_record r1))
    as Hrne.
  destruct (round_nearest_even (shr_m r1) (loc_of_shr_record r1))
    as [|m2|m2] eqn:Hm2; [lia| |lia].
  assert (24 ≤ Zpos (digits2_pos m2) ≤ 25) as Hd2.
  { pose proof (digits2_pos_bounds m2) as [Hl2 Hh2].
    split.
    - destruct (decide (24 ≤ Zpos (digits2_pos m2))); [done|].
      assert (2 ^ Zpos (digits2_pos m2) ≤ 2 ^ 23)
        by (apply Z.pow_le_mono_r; lia). lia.
    - destruct (decide (Zpos (digits2_pos m2) ≤ 25)); [done|].
      assert (2 ^ 25 ≤ 2 ^ (Zpos (digits2_pos m2) - 1))
        by (apply Z.pow_le_mono_r; lia). lia. }
  pose proof (shr_fexp_normal m2 e1 loc_Exact) as [Hm3 He3]; [lia..|].
  destruct (shr_fexp 24 128 (Zpos m2) e1 loc_Exact) as [r2 e2].
  cbn [fst snd] in *.
  pose proof (leading_bits m2) as Hlead2. rewrite <- Hm3 in Hlead2.
  destruct (shr_m r2) as [|m3|m3]; [lia| |lia].
  assert ((e2 <=? 128 - 24) = true) as -> by (apply Z.leb_le; lia).
  exists m3, e2. split; [done|]. split; [|lia].
  apply digits2_pos_unique. lia.
Qed.
Lemma iter_xO_value m (k : positive) :
  Zpos (Pos.iter xO m k) = Zpos m * 2 ^ Zpos k.
Proof.
  induction k as [|k IH] using Pos.peano_ind.
  - simpl. lia.
  - rewrite Pos.iter_succ, Pos2Z.inj_xO, IH, Pos2Z.inj_succ.
    rewrite Z.pow_succ_r by lia. lia.
Qed.

Lemma iter_xO_digits m (k : positive) :
  Zpos (digits2_pos (Pos.iter xO m k)) = Zpos (digits2_pos m) + Zpos k.
Proof.
  induction k as [|k IH] using Pos.peano_ind.
  - simpl. lia.
  - rewrite Pos.iter_succ. cbn [digits2_pos].
    rewrite Pos2Z.inj_succ, IH. lia.
Qed.

(** Rounding any mantissa in the normal range: the result is a normal
    float. *)
Lemma binary_round_normal (sx : bool) m e :
  -149 ≤ Zpos (digits2_pos m) + e - 24 →
  Zpos (digits2_pos m) + e - 23 ≤ 104 →
  ∃ m' e', binary_round 24 128 sx m e = S754_finite sx m' e' ∧
    Zpos (digits2_pos m') = 24 ∧
    Zpos (digits2_pos m) + e - 24 ≤ e' ≤ Zpos (digits2_pos m) + e - 23.
Proof.
  intros Hlo Hhi. unfold binary_round, shl_align.
  rewrite fexp_normal by done.
  destruct (Zpos (digits2_pos m) + e - 24 - e) as [|k|k] eqn:Hk.
  - apply binary_round_aux_normal; lia.
  - apply binary_round_aux_normal; lia.
  - pose proof (iter_xO_digits m k) as Hdig.
    destruct (binary_round_aux_normal sx (Pos.iter xO m k)
                (Zpos (digits2_pos m) + e - 24) loc_Exact)
      as (m' & e' & Hr & Hd' & He'); [lia..|].
    exists m', e'. split; [done|]. split; [done|]. lia.
Qed.
(** A positive 32-bit integer converts to a normal float. *)
Lemma to_float_normal (z : Z) :
  0 < z < 2 ^ 31 → normal32 (-23) 8 (to_float z).
Proof.
  intros [Hz Hlt]. destruct z as [|m|m]; [lia| |lia].
  unfold to_float, prec32, emax32, binary_normalize.
  pose proof (digits2_pos_bounds m) as [Hl Hh].
  assert (1 ≤ Zpos (digits2_pos m) ≤ 31) as Hd.
  { split; [lia|]. destruct (decide (Zpos (digits2_pos m) ≤ 31)); [done|].
    assert (2 ^ 31 ≤ 2 ^ (Zpos (digits2_pos m) - 1))
      by (apply Z.pow_le_mono_r; lia). lia. }
  destruct (binary_round_normal false m 0) as (m' & e' & -> & Hd' & He');
    [lia..|].
  exists m', e'. repeat split; [done|lia..].
Qed.

Lemma to_float_nonneg (z : Z) :
  0 ≤ z < 2 ^ 31 → nonneg32 (-23) 8 (to_float z).
Proof.
  intros [Hz Hlt]. destruct (decide (z = 0)) as [->|Hne]; [by left|].
  right. apply to_float_normal. lia.
Qed.

(** The sum of two normal floats is normal. *)
Lemma SFadd_normal lo hi x y :
  -149 ≤ lo → hi + 2 ≤ 104 →
  normal32 lo hi x → normal32 lo hi y →
  normal32 lo (hi + 2) (SFadd 24 128 x y).
Proof.
  intros Hlo Hhi (mx & ex & -> & Hdx & Hex) (my & ey & -> & Hdy & Hey).
  cbn [SFadd cond_Zopp].
  pose proof (digits2_pos_bounds mx) as [Hxl Hxh].
  pose proof (digits2_pos_bounds my) as [Hyl Hyh].
  rewrite Hdx in Hxl, Hxh. rewrite Hdy in Hyl, Hyh.
  set (ez := Z.min ex ey).
  assert (∀ m e, Zpos (digits2_pos m) = 24 → ez ≤ e →
            Zpos (shl_align m e ez).1 = Zpos m * 2 ^ (e - ez)) as Hal.
  { intros m e Hd He. unfold shl_align.
    destruct (ez - e) as [|k|k] eqn:Hk; cbn [fst].
    - replace (e - ez) with 0 by lia. lia.
    - lia.
    - rewrite iter_xO_value. f_equal. f_equal. lia. }
  pose proof (Hal mx ex Hdx ltac:(lia)) as Hax.
  pose proof (Hal my ey Hdy ltac:(lia)) as Hay.
  set (a := (shl_align mx ex ez).1) in *.
  set (b := (shl_align my ey ez).1) in *.
  change (Zpos a + Zpos b) with (Zpos (a + b)). cbn [binary_normalize].
  set (eM := Z.max ex ey).
  assert (2 ^ (eM - ez + 23) ≤ Zpos (a + b) < 2 ^ (eM - ez + 25)) as Hsum.
  { rewrite Pos2Z.inj_add, Hax, Hay.
    assert (0 < 2 ^ (ex - ez)) by (apply Z.pow_pos_nonneg; lia).
    assert (0 < 2 ^ (ey - ez)) by (apply Z.pow_pos_nonneg; lia).
    assert (2 ^ (ex - ez) ≤ 2 ^ (eM - ez)) by (apply Z.pow_le_mono_r; lia).
    assert (2 ^ (ey - ez) ≤ 2 ^ (eM - ez)) by (apply Z.pow_le_mono_r; lia).
    assert (2 ^ (eM - ez + 23) = 2 ^ (eM - ez) * 2 ^ 23) as ->
      by (rewrite Z.pow_add_r; lia).
    assert (2 ^ (eM - ez + 25) = 2 ^ (eM - ez) * 2 ^ 25) as ->
      by (rewrite Z.pow_add_r; lia).
    assert (2 ^ (ex - ez) = 2 ^ (eM - ez) ∨ 2 ^ (ey - ez) = 2 ^ (eM - ez))
      as Hmax by (unfold eM; destruct (Z.max_spec ex ey) as [[_ ->]|[_ ->]];
                  auto).
    nia. }
  assert (eM - ez + 24 ≤ Zpos (digits2_pos (a + b)) ≤ eM - ez + 25) as Hd.
  { pose proof (digits2_pos_bounds (a + b)) as [Hl Hh]. split.
    - destruct (decide (eM - ez + 24 ≤ Zpos (digits2_pos (a + b)))); [done|].
      assert (2 ^ Zpos (digits2_pos (a + b)) ≤ 2 ^ (eM - ez + 23))
        by (apply Z.pow_le_mono_r; lia). lia.
    - destruct (decide (Zpos (digits2_pos (a + b)) ≤ eM - ez + 25)); [done|].
      assert (2 ^ (eM - ez + 25) ≤ 2 ^ (Zpos (digits2_pos (a + b)) - 1))
        by (apply Z.pow_le_mono_r; lia). lia. }
  destruct (binary_round_normal false (a + b) ez) as (m' & e' & -> & Hd' & He');
    [lia..|].
  exists m', e'. repeat split; [done|lia..].
Qed.
(** The quotient of two normal floats is normal, hence positive. *)
Lemma SFdiv_normal lo1 hi1 lo2 hi2 x y :
  -149 ≤ lo1 - hi2 - 24 → hi1 - lo2 - 22 ≤ 104 →
  normal32 lo1 hi1 x → normal32 lo2 hi2 y →
  normal32 (lo1 - hi2 - 24) (hi1 - lo2 - 22) (SFdiv 24 128 x y).
Proof.
  intros Hlo Hhi (mx & ex & -> & Hdx & Hex) (my & ey & -> & Hdy & Hey).
  cbn [SFdiv xorb]. unfold SFdiv_core_binary. cbn [Zdigits2].
  rewrite Hdx, Hdy.
  replace (24 + ex - (24 + ey)) with (ex - ey) by lia.
  rewrite fexp_normal by lia.
  replace (Z.min (ex - ey - 24) (ex - ey)) with (ex - ey - 24) by lia.
  replace (ex - ey - (ex - ey - 24)) with 24 by lia.
  pose proof (digits2_pos_bounds mx) as [Hxl Hxh].
  pose proof (digits2_pos_bounds my) as [Hyl Hyh].
  rewrite Hdx in Hxl, Hxh. rewrite Hdy in Hyl, Hyh.
  rewrite Z.shiftl_mul_pow2 by lia.
  pose proof (Z.div_eucl_eq (Zpos mx * 2 ^ 24) (Zpos my) ltac:(lia)) as Heq.
  pose proof (Z.mod_pos_bound (Zpos mx * 2 ^ 24) (Zpos my) ltac:(lia)) as Hr.
  unfold Z.modulo in Hr.
  destruct (Z.div_eucl (Zpos mx * 2 ^ 24) (Zpos my)) as [q r].
  assert (2 ^ 23 ≤ q < 2 ^ 25) as Hq by nia.
  destruct q as [|q|q]; [lia| |lia].
  assert (24 ≤ Zpos (digits2_pos q) ≤ 25) as Hd.
  { pose proof (digits2_pos_bounds q) as [Hl Hh]. split.
    - destruct (decide (24 ≤ Zpos (digits2_pos q))); [done|].
      assert (2 ^ Zpos (digits2_pos q) ≤ 2 ^ 23)
        by (apply Z.pow_le_mono_r; lia). lia.
    - destruct (decide (Zpos (digits2_pos q) ≤ 25)); [done|].
      assert (2 ^ 25 ≤ 2 ^ (Zpos (digits2_pos q) - 1))
        by (apply Z.pow_le_mono_r; lia). lia. }
  destruct (binary_round_aux_normal false q (ex - ey - 24)
              (new_location (Zpos my) r))
    as (m' & e' & Hres & Hd' & He'); [lia..|].
  exists m', e'. split; [|split; [done|lia]].
  rewrite <- Hres. reflexivity.
Qed.

Lemma nonneg32_weaken lo hi lo' hi' x :
  lo' ≤ lo → hi ≤ hi' → nonneg32 lo hi x → nonneg32 lo' hi' x.
Proof.
  intros ?? [->|Hx]; [by left|]. right. by eapply normal32_weaken.
Qed.

(** Adding a non-negative float to a running sum. *)
Lemma SFadd_nonneg lo hi hi' acc x :
  -149 ≤ lo → hi ≤ hi' → hi' + 2 ≤ 104 →
  nonneg32 lo hi' acc → nonneg32 lo hi x →
  nonneg32 lo (hi' + 2) (SFadd 24 128 acc x) ∧
  (normal32 lo hi' acc ∨ normal32 lo hi x →
   normal32 lo (hi' + 2) (SFadd 24 128 acc x)).
Proof.
  intros Hlo Hle Hhi [->|Hacc] [->|Hx].
  - split; [by left|]. intros [(? & ? & ? & _)|(? & ? & ? & _)]; done.
  - assert (SFadd 24 128 (S754_zero false) x = x) as ->
      by (by destruct Hx as (m & e & -> & _)).
    assert (normal32 lo (hi' + 2) x) by (eapply normal32_weaken; [..|done]; lia).
    split; [by right|done].
  - assert (SFadd 24 128 acc (S754_zero false) = acc) as ->
      by (by destruct Hacc as (m & e & -> & _)).
    assert (normal32 lo (hi' + 2) acc)
      by (eapply normal32_weaken; [..|done]; lia).
    split; [by right|done].
  - assert (normal32 lo (hi' + 2) (SFadd 24 128 acc x)) as Hsum.
    { apply SFadd_normal; [lia..|done|].
      eapply normal32_weaken; [..|done]; lia. }
    split; [by right|done].
Qed.

(** The running sum of non-negative floats. *)
Lemma foldl_SFadd_nonneg lo hi (l : list spec_float) : ∀ hi' acc,
  -149 ≤ lo → hi ≤ hi' → hi' + 2 * Z.of_nat (length l) ≤ 104 →
  nonneg32 lo hi' acc → Forall (nonneg32 lo hi) l →
  nonneg32 lo (hi' + 2 * Z.of_nat (length l)) (foldl (SFadd 24 128) acc l) ∧
  (normal32 lo hi' acc ∨ Exists (normal32 lo hi) l →
   normal32 lo (hi' + 2 * Z.of_nat (length l)) (foldl (SFadd 24 128) acc l)).
Proof.
  induction l as [|x l IH]; intros hi' acc Hlo Hle Hhi Hacc Hl.
  - cbn [foldl length]. replace (hi' + 2 * Z.of_nat 0) with hi' by lia.
    split; [done|]. intros [?|Hex]; [done|]. by apply Exists_nil in Hex.
  - inversion_clear Hl as [|? ? Hx Hl']. cbn [foldl length] in *.
    destruct (SFadd_nonneg lo hi hi' acc x) as [Hnn Hnorm]; [lia..|done|done|].
    destruct (IH (hi' + 2) (SFadd 24 128 acc x)) as [Hnn' Hnorm'];
      [lia..|done|done|].
    replace (hi' + 2 * Z.of_nat (S (length l)))
      with (hi' + 2 + 2 * Z.of_nat (length l)) by lia.
    split; [done|]. intros [Hacc'|Hex]; apply Hnorm'.
    + left. apply Hnorm. by left.
    + apply Exists_cons in Hex as [Hx'|Hex]; [|by right].
      left. apply Hnorm. by right.
Qed.

Lemma fsum_nonneg (l : list spec_float) :
  (length l ≤ 27)%nat → Forall (nonneg32 (-23) 8) l →
  nonneg32 (-23) 62 (fsum l) ∧
  (Exists (normal32 (-23) 8) l → normal32 (-23) 62 (fsum l)).
Proof.
  intros Hlen Hl. unfold fsum, prec32, emax32.
  destruct (foldl_SFadd_nonneg (-23) 8 l 8 (S754_zero false))
    as [Hnn Hnorm]; [lia..|by left|done|].
  split.
  - eapply nonneg32_weaken; [..|done]; lia.
  - intros Hex. eapply normal32_weaken; [..|apply Hnorm; by right]; lia.
Qed.

Lemma normal32_positive lo hi x :
  normal32 lo hi x → SFltb (S754_zero false) x = true.
Proof. by intros (m & e & -> & _). Qed.
End float32.

(** ** Row 0 and the extraction *)

Section row0.
Implicit Types (words : list (list N)) (M : list (list Z)) (row : list Z).
Implicit Types (i j : nat) (v : Z).

(** While no count of row 0 reaches [2^31], row 0 holds the counts. *)
Lemma row0_exact words M :
  counter words = Ok M →
  (∀ j, j < side → (Z.of_nat (follows words 0 j) < 2 ^ 31)%Z) →
  ∃ row, M !! 0 = Some row ∧ length row = side ∧
    (∀ j, j < side → row !! j = Some (Z.of_nat (follows words 0 j))) ∧
    Forall (λ v, 0 ≤ v < 2 ^ 31)%Z row.
Proof.
  intros HM Hb. pose proof (counter_inv words M HM) as (_ & Hshape & Hcells).
  destruct (shape_lookup side side M 0 Hshape) as (row & Hrow & Hlen);
    [unfold side; lia|].
  assert (∀ j, j < side → row !! j = Some (Z.of_nat (follows words 0 j)))
    as Hrowj.
  { intros j Hj. specialize (Hcells 0 j ltac:(unfold side; lia) Hj).
    unfold cell in Hcells. rewrite Hrow in Hcells. simpl in Hcells.
    rewrite Hcells. f_equal. apply wrap32_small. specialize (Hb j Hj). lia. }
  exists row. repeat split; try done.
  apply Forall_lookup. intros j v Hv.
  assert (j < side) as Hj by (apply lookup_lt_Some in Hv; lia).
  rewrite (Hrowj j Hj) in Hv. injection Hv as <-. specialize (Hb j Hj). lia.
Qed.

(** The extraction on a row of counts that have not wrapped around, one of
    them at least 1: the float sum is a normal float, every quotient is
    [+0] or a normal float, and the quotient of a count that is at least 1
    is a normal float. *)
Lemma p_of_counts M row :
  M !! 0 = Some row → length row ≤ 27 →
  Forall (λ v, 0 ≤ v < 2 ^ 31)%Z row →
  (∃ j v, row !! j = Some v ∧ (1 ≤ v)%Z) →
  (0 < zsum row)%Z ∧
  normal32 (-23) 62 (fsum (to_float <$> row)) ∧
  ∃ ps, p M = Ok ps ∧ length ps = length row ∧
    Forall (nonneg32 (-109) 9) ps ∧
    ∀ j v, row !! j = Some v → (1 ≤ v)%Z →
      ∃ q, ps !! j = Some q ∧ normal32 (-109) 9 q.
Proof.
  intros Hrow Hlen Hrange (j0 & v0 & Hj0 & Hv0).
  assert (Forall (nonneg32 (-23) 8) (to_float <$> row)) as Hnn.
  { apply Forall_fmap. eapply Forall_impl; [done|].
    intros v Hv. simpl. by apply to_float_nonneg. }
  assert (∀ j v, row !! j = Some v → (1 ≤ v)%Z →
            normal32 (-23) 8 (to_float v)) as Hnorm.
  { intros j v Hj Hv. apply to_float_normal.
    eapply Forall_lookup_1 in Hrange; [|done]. lia. }
  destruct (fsum_nonneg (to_float <$> row)) as [_ Hs];
    [by rewrite length_fmap|done|].
  assert (normal32 (-23) 62 (fsum (to_float <$> row))) as Hsum.
  { apply Hs. apply Exists_exists. exists (to_float v0). split; [|by eauto].
    apply list_elem_of_fmap. exists v0. split; [done|].
    by eapply list_elem_of_lookup_2. }
  split.
  { assert (Forall (λ v, 0 ≤ v)%Z row) as Hpos
      by (eapply Forall_impl; [done|]; simpl; lia).
    pose proof (zsum_lookup_le row j0 v0 Hpos Hj0). lia. }
  split; [done|].
  unfold p, list_getitem. rewrite Hrow. simpl. eexists. split; [done|].
  split; [by rewrite !length_fmap|]. split.
  - apply Forall_fmap. eapply Forall_impl; [apply Hnn|].
    intros x [->|Hx]; simpl.
    + left. by destruct Hsum as (m & e & -> & _).
    + right. unfold prec32, emax32.
      eapply normal32_weaken;
        [| |apply (SFdiv_normal (-23) 8 (-23) 62); [lia|lia|done|done]]; lia.
  - intros j v Hj Hv. rewrite !list_lookup_fmap, Hj. simpl.
    eexists. split; [done|]. unfold prec32, emax32.
    eapply normal32_weaken;
      [| |apply (SFdiv_normal (-23) 8 (-23) 62); [lia|lia|by eauto|done]]; lia.
Qed.

(** The vector the script ends with is the extraction from the table of
    the pass. *)
Lemma script_vector words M (ps : list spec_float) :
  counter words = Ok M → p M = Ok ps →
  ∀ t vec, script words = Ok (t, vec) → vec = ps.
Proof.
  intros HM Hp t vec. unfold script. rewrite HM. simpl.
  destruct (render (itos words) M) as [t'|e]; [|done]. simpl.
  rewrite Hp. simpl. by intros [= _ <-].
Qed.

End row0.

(** ** Empty lines after a corpus *)

Section appended_lines.
Implicit Types (words ws : list (list N)) (M : list (list Z)).
Implicit Types (n : nat) (v : Z).

Lemma join_app_empty_lines ws n : join (ws ++ empty_lines n) = join ws.
Proof.
  unfold join. rewrite join_app. fold (join (empty_lines n)).
  rewrite join_empty_lines. apply (right_id_L [] (++)).
Qed.

Lemma stoi_app_empty_lines ws n : stoi (ws ++ empty_lines n) = stoi ws.
Proof. unfold stoi, stoi0, chars. by rewrite join_app_empty_lines. Qed.

Lemma itos_app_empty_lines ws n : itos (ws ++ empty_lines n) = itos ws.
Proof. unfold itos. by rewrite stoi_app_empty_lines. Qed.

Lemma indices_app_empty_lines ws n :
  indices (ws ++ empty_lines n) = indices ws ++ replicate n (0, 0).
Proof.
  unfold indices. rewrite stoi_app_empty_lines. unfold transitions.
  rewrite bind_app, fmap_app. f_equal.
  change (empty_lines n ≫= λ w, bigrams (wrapped w))
    with (transitions (empty_lines n)).
  rewrite transitions_empty_lines, fmap_replicate. f_equal.
  unfold index_pair. simpl. by rewrite stoi_dot.
Qed.

(** Empty lines after a corpus only add increments of cell [0, 0]. *)
Lemma counter_app_empty_lines ws n M :
  counter ws = Ok M →
  counter (ws ++ empty_lines n) = bump_all M (replicate n (0, 0)).
Proof.
  intros HM. rewrite counter_bump_all in HM.
  by rewrite counter_bump_all, indices_app_empty_lines, bump_all_app, HM.
Qed.

Lemma incr_table_alphabet v :
  incr (table_alphabet v) 0 0 = Ok (table_alphabet (wrap32 (v + 1))).
Proof.
  unfold incr.
  assert (table_alphabet v !! 0 = Some ([v; 1] ++ replicate 25 0)%Z) as ->
    by (vm_compute; reflexivity).
  cbn [app lookup list_lookup]. generalize (wrap32 (v + 1)). intros w.
  vm_compute. reflexivity.
Qed.

Lemma bump_all_table_alphabet n : ∀ v,
  bump_all (table_alphabet v) (replicate n (0, 0))
  = Ok (table_alphabet (bumped n v)).
Proof.
  induction n as [|n IH]; intros v; [done|].
  cbn [replicate]. rewrite bump_all_cons. cbn [fst snd].
  rewrite incr_table_alphabet. unfold mbind at 1, result_bind.
  by rewrite IH, bumped_succ.
Qed.

Lemma counter_alphabet_lines n :
  counter (corpus_alphabet_lines n)
  = Ok (table_alphabet (wrap32 (Z.of_nat n))).
Proof.
  unfold corpus_alphabet_lines.
  rewrite (counter_app_empty_lines corpus_alphabet n (table_alphabet 0))
    by (by vm_compute).
  by rewrite bump_all_table_alphabet, bumped_zero.
Qed.

(** On the twenty-six letters followed by empty lines the script depends
    on the number of lines through cell [0, 0] only. *)
Lemma script_alphabet_lines n v :
  wrap32 (Z.of_nat n) = v →
  script (corpus_alphabet_lines n)
  = (t ← render (itos corpus_alphabet) (table_alphabet v);
     vec ← p (table_alphabet v);
     Ok (t, vec)).
Proof.
  intros <-. unfold script. rewrite counter_alphabet_lines.
  unfold corpus_alphabet_lines. by rewrite itos_app_empty_lines.
Qed.

Lemma render_table_alphabet v :
  render (itos corpus_alphabet) (table_alphabet v)
  = Ok (plot_of (λ k, default dot (itos corpus_alphabet !! k))
          (table_alphabet v)).
Proof.
  apply render_Ok; [apply shape_tabulate|].
  apply below_side_Forall. apply (bool_decide_unpack _). by vm_compute.
Qed.

Lemma elem_of_alphabet_lines n : n ≠ 0 → [] ∈ corpus_alphabet_lines n.
Proof.
  intros Hn. unfold corpus_alphabet_lines, empty_lines.
  apply elem_of_app. right. by apply elem_of_replicate.
Qed.


(** With [2^32] empty lines after the letters, cell [0, 0] is back to 0:
    the table is that of the letters alone, and the boundary symbol gets
    the quotient [+0]. *)
Lemma alphabet_lines_back_to_zero n :
  Z.of_nat n = (2 ^ 32)%Z →
  [] ∈ corpus_alphabet_lines n ∧
  counter (corpus_alphabet_lines n) = Ok (table_alphabet 0) ∧
  script (corpus_alphabet_lines n)
  = Ok (plot_of (λ k, default dot (itos corpus_alphabet !! k))
          (table_alphabet 0),
        [S754_zero false; S754_finite false 8388608 (-23)]
        ++ replicate 25 (S754_zero false)).
Proof.
  intros Hn.
  assert (wrap32 (Z.of_nat n) = 0)%Z as Hw by (rewrite Hn; by vm_compute).
  split.
  { apply elem_of_alphabet_lines. intros ->. discriminate Hn. }
  split; [by rewrite counter_alphabet_lines, Hw|].
  rewrite (script_alphabet_lines n 0 Hw), render_table_alphabet.
  unfold mbind at 1, result_bind.
  assert (p (table_alphabet 0)
          = Ok ([S754_zero false; S754_finite false 8388608 (-23)]
                ++ replicate 25 (S754_zero false))) as -> by (by vm_compute).
  done.
Qed.
End appended_lines.

(** ** The sum of the table and the wrapped cells *)

Section table_sum_wrapped.
Implicit Types (words : list (list N)) (M : list (list Z)).
Implicit Types (i j k r c n : nat).

(** Wrapping a non-negative count never increases it, and leaves it as it
    is only below [2^31]. *)
Lemma wrap32_nonneg_le (z : Z) : (0 ≤ z)%Z → (wrap32 z ≤ z)%Z.
Proof.
  intros Hz. pose proof (wrap32_range z).
  destruct (decide (z < 2 ^ 31)%Z); [rewrite wrap32_small; lia|lia].
Qed.

Lemma wrap32_fixed (z : Z) : (0 ≤ z)%Z → wrap32 z = z → (z < 2 ^ 31)%Z.
Proof. intros Hz Heq. pose proof (wrap32_range z). lia. Qed.

Lemma zsum_fmap_le {A} (g h : A → Z) (l : list A) :
  (∀ a, a ∈ l → (g a ≤ h a)%Z) → (zsum (g <$> l) ≤ zsum (h <$> l))%Z.
Proof.
  induction l as [|a l IH]; intros Hle; [done|].
  rewrite !fmap_cons, !zsum_cons.
  pose proof (Hle a ltac:(by left)).
  pose proof (IH (λ b Hb, Hle b ltac:(by right))). lia.
Qed.

(** Termwise smaller with the same sum is termwise equal. *)
Lemma zsum_fmap_le_eq {A} (g h : A → Z) (l : list A) :
  (∀ a, a ∈ l → (g a ≤ h a)%Z) → zsum (g <$> l) = zsum (h <$> l) →
  ∀ a, a ∈ l → g a = h a.
Proof.
  induction l as [|a l IH]; intros Hle Heq b Hb;
    [by apply elem_of_nil in Hb|].
  rewrite !fmap_cons, !zsum_cons in Heq.
  pose proof (Hle a ltac:(by left)) as Ha.
  pose proof (zsum_fmap_le g h l (λ b Hb, Hle b ltac:(by right))) as Hl.
  apply elem_of_cons in Hb as [->|Hb]; [lia|].
  apply IH; [|lia|done]. intros b' Hb'. apply Hle. by right.
Qed.

Lemma sum_below_le n (g h : nat → Z) :
  (∀ k, k < n → (g k ≤ h k)%Z) → (sum_below n g ≤ sum_below n h)%Z.
Proof.
  intros Hle. unfold sum_below. apply zsum_fmap_le.
  intros k Hk. apply Hle. apply elem_of_seq in Hk. lia.
Qed.

Lemma sum_below_le_eq n (g h : nat → Z) :
  (∀ k, k < n → (g k ≤ h k)%Z) → sum_below n g = sum_below n h →
  ∀ k, k < n → g k = h k.
Proof.
  intros Hle Heq k Hk. unfold sum_below in Heq.
  apply (zsum_fmap_le_eq g h (seq 0 n)); [|done|apply elem_of_seq; lia].
  intros k' Hk'. apply Hle. apply elem_of_seq in Hk'. lia.
Qed.

Lemma table_sum_tabulate r c f :
  table_sum (tabulate r c f) = sum_below r (λ i, sum_below c (f i)).
Proof.
  unfold table_sum, tabulate, sum_below. by rewrite <- list_fmap_compose.
Qed.

(** Whatever the counts, the table is the table of the wrapped counts. *)
Lemma counter_tabulate_wrapped words M :
  counter words = Ok M →
  M = tabulate side side (λ i j, wrap32 (Z.of_nat (follows words i j))).
Proof.
  intros HM. pose proof (counter_inv words M HM) as (_ & Hshape & Hcells).
  apply (table_ext side side); [done|apply shape_tabulate|].
  intros i j Hi Hj. rewrite cell_tabulate by done. by apply Hcells.
Qed.

Lemma sum_count_if_below r (l : list nat) :
  Forall (λ k, k < r) l →
  sum_below r (λ i, Z.of_nat (count_if (λ k, k = i) l)) = Z.of_nat (length l).
Proof.
  induction 1 as [|a l Ha Hl IH].
  - unfold sum_below. by rewrite zsum_fmap_zero.
  - rewrite (sum_below_ext r _ (λ i,
      (if decide (i = a) then 1 else 0)
      + Z.of_nat (count_if (λ k, k = i) l))%Z).
    + unfold sum_below in *. rewrite zsum_fmap_add, IH.
      pose proof (sum_below_indicator r a) as Hind. unfold sum_below in Hind.
      rewrite Hind, decide_True by done. cbn [length]. lia.
    + intros i _. rewrite count_if_cons.
      repeat case_decide; simplify_eq; lia.
Qed.

(** The counts of all pairs add up to the number of transitions. *)
Lemma sum_follows_total words :
  Forall (inside side side) (indices words) →
  sum_below side (λ i, sum_below side (λ j, Z.of_nat (follows words i j)))
  = Z.of_nat (total words).
Proof.
  intros Hin.
  rewrite (sum_below_ext side _
             (λ i, Z.of_nat (count_if (λ k, k = i) (indices words).*1))).
  - rewrite sum_count_if_below.
    + unfold indices. by rewrite !length_fmap, length_transitions.
    + apply Forall_fmap. eapply Forall_impl; [done|]. by intros [a b] [? _].
  - intros i _. rewrite <- (sum_occurrences_row side side) by done.
    apply sum_below_ext. intros j _. by rewrite follows_occurrences.
Qed.
End table_sum_wrapped.

(** C2 (as amended): when the counting pass finishes, the cells of the
    table sum to the number of characters of the corpus plus its number of
    words exactly when no pair of indices occurs [2^31] times or more, that
    is, when no cell has wrapped around. *)
Theorem table_sum_total (words : list (list N)) (M : list (list Z)) :
  counter words = Ok M →
  table_sum M = Z.of_nat (total words) ↔
  ∀ i j : nat, i < side → j < side →
    (Z.of_nat (follows words i j) < 2 ^ 31)%Z.
Proof.
  intros HM. pose proof (counter_inv words M HM) as (Hin & _ & _).
  rewrite (counter_tabulate_wrapped words M HM), table_sum_tabulate.
  rewrite <- (sum_follows_total words Hin).
  assert (∀ i j, (wrap32 (Z.of_nat (follows words i j))
                 ≤ Z.of_nat (follows words i j))%Z) as Hle
    by (intros i j; apply wrap32_nonneg_le; lia).
  split.
  - intros Heq i j Hi Hj.
    pose proof (sum_below_le_eq side _ _
                  (λ i' _, sum_below_le side _ _ (λ j' _, Hle i' j'))
                  Heq i Hi) as Hrow.
    pose proof (sum_below_le_eq side _ _ (λ j' _, Hle i j') Hrow j Hj)
      as Hcell.
    apply wrap32_fixed in Hcell; lia.
  - intros Hsmall. apply sum_below_ext. intros i Hi.
    apply sum_below_ext. intros j Hj. apply wrap32_small.
    specialize (Hsmall i j Hi Hj). lia.
Qed.

Lemma table_sum_total_witness :
  table_sum table_ab_ab = Z.of_nat (total corpus_ab_ab) ↔
  ∀ i j : nat, i < side → j < side →
    (Z.of_nat (follows corpus_ab_ab i j) < 2 ^ 31)%Z.
Proof.
  apply (table_sum_total corpus_ab_ab table_ab_ab). vm_compute. reflexivity.
Defined.

(** ** The extraction at the end of the script *)

Section extraction.
Implicit Types (words : list (list N)) (M : list (list Z)) (row : list Z).


(** An empty word is one transition from the boundary symbol to itself. *)
Lemma empty_word_transition words : [] ∈ words → (dot, dot) ∈ transitions words.
Proof.
  intros Hin. unfold transitions. apply list_elem_of_bind. exists [].
  split; [|done]. by left.
Qed.

(** Dividing by a zero sum raises nothing: a zero divided by it is a NaN,
    anything else a NaN or an infinity. *)
Lemma SFdiv_zero_sum (x : spec_float) (b : bool) :
  SFdiv prec32 emax32 x (S754_zero b) = S754_nan
  ∨ ∃ s, SFdiv prec32 emax32 x (S754_zero b) = S754_infinity s.
Proof. destruct x; simpl; eauto. Qed.

Lemma p_zero_sum M row (b : bool) :
  M !! 0 = Some row → fsum (to_float <$> row) = S754_zero b →
  p M = Ok ((λ x, SFdiv prec32 emax32 x (S754_zero b)) <$> (to_float <$> row)).
Proof.
  intros Hrow Hs. unfold p, list_getitem. rewrite Hrow. simpl. by rewrite Hs.
Qed.
End extraction.




(** C6 (as amended): on the empty corpus the pass leaves the zero table,
    whose row 0 sums to zero, and the extraction applied to that table
    returns 27 NaN and raises nothing; but the script never gets there: its
    plot stops on a key error, the vocabulary holding the boundary symbol
    only.  In general the division is not guarded: whenever the sum of row 0
    in single precision is a zero, the extraction raises nothing and returns
    NaN and infinities only, with a NaN for every zero count. *)
Theorem zero_sum_division_unguarded
    (M : list (list Z)) (row : list Z) (b : bool) :
  (counter [] = Ok N_init ∧
   N_init !! 0 = Some (replicate side 0%Z) ∧
   zsum (replicate side 0%Z) = 0%Z ∧
   fsum (to_float <$> replicate side 0%Z) = S754_zero false ∧
   p N_init = Ok (replicate side S754_nan) ∧
   script [] = Raise KeyError) ∧
  (M !! 0 = Some row → fsum (to_float <$> row) = S754_zero b →
   ∃ ps : list spec_float,
     p M = Ok ps ∧ length ps = length row ∧
     Forall (λ q, q = S754_nan ∨ ∃ s, q = S754_infinity s) ps ∧
     ∀ j : nat, row !! j = Some 0%Z → ps !! j = Some S754_nan).
Proof.
  split.
  - repeat split; vm_compute; reflexivity.
  - intros Hrow Hs. eexists. split; [by apply p_zero_sum|].
    split; [by rewrite !length_fmap|]. split.
    + apply Forall_fmap, Forall_forall. intros x _. apply SFdiv_zero_sum.
    + intros j Hj. by rewrite !list_lookup_fmap, Hj.
Qed.

Lemma zero_sum_division_unguarded_witness :
  ∃ ps : list spec_float,
    p (table_alphabet (-1)) = Ok ps ∧
    length ps = length ([-1; 1] ++ replicate 25 0)%Z ∧
    Forall (λ q, q = S754_nan ∨ ∃ s, q = S754_infinity s) ps ∧
    ∀ j : nat, ([-1; 1] ++ replicate 25 0)%Z !! j = Some 0%Z →
               ps !! j = Some S754_nan.
Proof.
  apply (proj2 (zero_sum_division_unguarded (table_alphabet (-1))
                  ([-1; 1] ++ replicate 25 0)%Z false)).
  - vm_compute. reflexivity.
  - vm_compute. reflexivity.
Defined.

(** C6 as stated fails on the empty corpus itself: the pass leaves the zero
    table, index 1 stands for no character, and the script ends with a key
    error raised by the plot, before the division. *)
Lemma empty_corpus_stops_in_plot :
  counter [] = Ok N_init ∧ itos [] !! 1 = None ∧
  render (itos []) N_init = Raise KeyError ∧
  script [] = Raise KeyError ∧
  starting_distribution [] = Raise KeyError.
Proof. repeat split; vm_compute; reflexivity. Qed.

(** C9 (as amended): an empty line makes the pass perform exactly the one
    increment of cell [0, 0]; and whenever the corpus contains an empty
    word, the pass finishes and no count of row 0 reaches [2^31], cell
    [0, 0] is at least 1, the extraction raises nothing, and the float it
    gives the boundary symbol is a normal float, strictly above zero, which
    is entry 0 of the vector the script ends with whenever the plot
    succeeds. *)
Theorem empty_line_boundary_start (words : list (list N)) (M : list (list Z)) :
  (∀ M0 : list (list Z), count_word (stoi words) M0 [] = incr M0 0 0) ∧
  ([] ∈ words → counter words = Ok M →
   (∀ j : nat, j < side → (Z.of_nat (follows words 0 j) < 2 ^ 31)%Z) →
   ∃ (v : Z) (ps : list spec_float) (q : spec_float),
     cell M 0 0 = Some v ∧ (1 ≤ v)%Z ∧
     p M = Ok ps ∧ ps !! 0 = Some q ∧
     normal32 (-109) 9 q ∧ SFltb (S754_zero false) q = true ∧
     (∀ t vec, script words = Ok (t, vec) → vec !! 0 = Some q)).
Proof.
  split.
  - intros M0. rewrite count_word_bump_all.
    + cbn [wrapped app bigrams tail zip zip_with fmap list_fmap].
      unfold index_pair. simpl. rewrite stoi_dot. simpl.
      rewrite bump_all_cons. simpl. by destruct (incr M0 0 0).
    + intros x Hx. apply stoi_total. left.
      apply elem_of_wrapped in Hx as [?|Hx]; [done|by apply elem_of_nil in Hx].
  - intros Hin HM Hb.
    pose proof (follows_pos words dot dot 0 0 (empty_word_transition words Hin)
                  (stoi_dot words) (stoi_dot words)) as Hpos.
    destruct (row0_exact words M HM Hb)
      as (row & Hrow & Hlen & Hrowj & Hrange).
    assert (row !! 0 = Some (Z.of_nat (follows words 0 0))) as Hrow0
      by (apply Hrowj; unfold side; lia).
    destruct (p_of_counts M row Hrow) as (_ & _ & ps & Hp & _ & _ & Hq);
      [by rewrite Hlen|done| |].
    { exists 0, (Z.of_nat (follows words 0 0)). split; [done|lia]. }
    destruct (Hq 0 _ Hrow0) as (q & Hq0 & Hqn); [lia|].
    exists (Z.of_nat (follows words 0 0)), ps, q. repeat split; try done.
    + unfold cell. by rewrite Hrow.
    + lia.
    + by eapply normal32_positive.
    + intros t vec Hs. by rewrite (script_vector words M ps HM Hp t vec Hs).
Qed.

Lemma empty_line_boundary_start_witness :
  ∃ (v : Z) (ps : list spec_float) (q : spec_float),
    cell table_ab_empty 0 0 = Some v ∧ (1 ≤ v)%Z ∧
    p table_ab_empty = Ok ps ∧ ps !! 0 = Some q ∧
    normal32 (-109) 9 q ∧ SFltb (S754_zero false) q = true ∧
    (∀ t vec, script corpus_ab_empty = Ok (t, vec) → vec !! 0 = Some q).
Proof.
  apply (proj2 (empty_line_boundary_start corpus_ab_empty table_ab_empty)).
  - unfold corpus_ab_empty. apply list_elem_of_further, list_elem_of_here.
  - vm_compute. reflexivity.
  - apply below_side_Forall. apply (bool_decide_unpack _). vm_compute.
    reflexivity.
Defined.

(** C9 as stated fails on the twenty-six letters followed by [2^32] empty
    lines: the corpus contains an empty word and the whole script runs to
    its end, but cell [0, 0] has wrapped around to 0 and the boundary symbol
    gets the float [+0], which is not above zero. *)
Lemma empty_lines_no_positive_start :
  [] ∈ corpus_back_to_zero ∧
  counter corpus_back_to_zero = Ok (table_alphabet 0) ∧
  cell (table_alphabet 0) 0 0 = Some 0%Z ∧
  (∃ t vec, script corpus_back_to_zero = Ok (t, vec) ∧
            vec !! 0 = Some (S754_zero false)) ∧
  SFltb (S754_zero false) (S754_zero false) = false.
Proof.
  unfold corpus_back_to_zero.
  destruct (alphabet_lines_back_to_zero _ (of_nat_pow2 32))
    as (Hin & HM & Hs).
  split; [exact Hin|]. split; [exact HM|].
  split; [vm_compute; reflexivity|]. split; [|reflexivity].
  eexists _, _. split; [exact Hs|reflexivity].
Qed.
